(** * autoglm-go: segmentation and action parsing

    A shallow embedding of
      - [phoneagent/helper/parse.go]: [ParseAction], [parseDoCall],
        [parseFinishMessage], [parseLiteral];
      - the model client: the streaming loop of [Request] (the live
        segmenter) and [parseResponse] (the authoritative split).

    Go strings are byte sequences: they are modelled as [list ascii].
    The functions of the Go standard library the code calls
    ([strings.HasPrefix], [strings.Split], [strings.TrimSpace],
    [strconv.Atoi], the [regexp] match of [messageRe], ...) are modelled
    from their documented behaviour in the first part of the file.
    [strconv.ParseFloat] is a parameter of the development. Calls to the
    logger have no effect on the results and are left out. *)

From Stdlib Require Import ZArith Lia List Ascii String Bool.
From stdpp Require Import base option list gmap strings.

Set Default Proof Using "Type".
Local Open Scope Z_scope.
Local Open Scope list_scope.

(** ** Go strings *)

Abbreviation gostring := (list ascii).

(** [str] turns a literal into a Go string. *)
Definition str (s : string) : gostring := list_ascii_of_string s.
Arguments str : simpl never.

(** The double-quote character (byte 34). *)
Definition dquote : ascii := ascii_of_nat 34.
(** The backslash (byte 92) and the line feed (byte 10). *)
Definition backslash : ascii := ascii_of_nat 92.
Definition newline : ascii := ascii_of_nat 10.

Definition streq (a b : gostring) : bool := bool_decide (a = b).

(** ** Outcome of running a Go function: it returns, or it panics. *)

Inductive outcome (A : Type) : Type :=
  | Returns (a : A)
  | Panics.
Arguments Returns {A} a.
Arguments Panics {A}.

#[global] Instance outcome_bind : MBind outcome := fun A B k m =>
  match m with
  | Returns a => k a
  | Panics => Panics
  end.

(** A Go [error] value: [None] is [nil], [Some msg] an error whose
    [Error()] text is [msg]. *)
Abbreviation error := (option gostring).

(** ** Package [strings] *)

Module GoStrings.

Fixpoint HasPrefix (s prefix : gostring) {struct prefix} : bool :=
  match prefix, s with
  | [], _ => true
  | _ :: _, [] => false
  | p :: prefix', c :: s' => Ascii.eqb c p && HasPrefix s' prefix'
  end.

Definition HasSuffix (s suffix : gostring) : bool :=
  HasPrefix (rev s) (rev suffix).

Definition TrimPrefix (s prefix : gostring) : gostring :=
  if HasPrefix s prefix then drop (length prefix) s else s.

Definition TrimSuffix (s suffix : gostring) : gostring :=
  if HasSuffix s suffix then take (length s - length suffix) s else s.

(** [Index s sep]: the index of the first instance of [sep] in [s]. *)
Fixpoint Index (s sep : gostring) : option nat :=
  if HasPrefix s sep then Some 0%nat
  else match s with
       | [] => None
       | _ :: s' => S <$> Index s' sep
       end.

Definition Contains (s sep : gostring) : bool :=
  match Index s sep with Some _ => true | None => false end.

(** [Cut s sep]: the text before and after the first instance of [sep]. *)
Definition Cut (s sep : gostring) : option (gostring * gostring) :=
  match Index s sep with
  | Some i => Some (take i s, drop (i + length sep) s)
  | None => None
  end.

(** [SplitN s sep 2], for a non-empty [sep]. *)
Definition SplitN2 (s sep : gostring) : list gostring :=
  match Cut s sep with
  | Some (before, after) => [before; after]
  | None => [s]
  end.

(** [Split s sep], for a non-empty [sep]: the loop of [genSplit], which
    cuts at most [Count s sep] times; the count is bounded by [length s]. *)
Fixpoint genSplit (n : nat) (s sep : gostring) : list gostring :=
  match n with
  | O => [s]
  | S n' =>
      match Cut s sep with
      | Some (before, after) => before :: genSplit n' after sep
      | None => [s]
      end
  end.

Definition Split (s sep : gostring) : list gostring :=
  genSplit (length s) s sep.

(** [ReplaceAll s old new], for a non-empty [old]. *)
Fixpoint replaceN (n : nat) (s old new : gostring) : gostring :=
  match n with
  | O => s
  | S n' =>
      match Cut s old with
      | Some (before, after) => before ++ new ++ replaceN n' after old new
      | None => s
      end
  end.

Definition ReplaceAll (s old new : gostring) : gostring :=
  replaceN (length s) s old new.

(** The UTF-8 encodings of the code points of [unicode.IsSpace]:
    U+0009..U+000D, U+0020, U+0085, U+00A0, U+1680, U+2000..U+200A,
    U+2028, U+2029, U+202F, U+205F, U+3000. *)
Definition spaceRunes : list gostring :=
  map (map ascii_of_nat)
    ([ [9]; [10]; [11]; [12]; [13]; [32]; [194; 133]; [194; 160];
       [225; 154; 128] ]
     ++ map (fun k => [226; 128; k]) (seq 128 11)
     ++ [ [226; 128; 168]; [226; 128; 169]; [226; 128; 175];
          [226; 129; 159]; [227; 128; 128] ])%nat.

(** Number of bytes of the rune in [runes] that [s] starts with, [0] if
    there is none. *)
Definition leadLen (runes : list gostring) (s : gostring) : nat :=
  match find (HasPrefix s) runes with
  | Some r => length r
  | None => 0%nat
  end.

Fixpoint trimLead (n : nat) (runes : list gostring) (s : gostring) : gostring :=
  match n with
  | O => s
  | S n' =>
      match leadLen runes s with
      | O => s
      | k => trimLead n' runes (drop k s)
      end
  end.

Definition TrimLeftSpace (s : gostring) : gostring :=
  trimLead (length s) spaceRunes s.

Definition TrimRightSpace (s : gostring) : gostring :=
  rev (trimLead (length s) (map (@rev ascii) spaceRunes) (rev s)).

(** [TrimSpace s]: [s] without leading and trailing white space, as
    defined by Unicode. A byte that starts no valid encoding of a space
    stops the trimming (it decodes to U+FFFD, which is not a space). *)
Definition TrimSpace (s : gostring) : gostring :=
  TrimRightSpace (TrimLeftSpace s).

End GoStrings.

(** Slice expression [s[lo:hi]]: a run-time panic unless
    [0 <= lo <= hi <= len(s)]. *)
Definition slice (s : gostring) (lo hi : Z) : outcome gostring :=
  if (0 <=? lo) && (lo <=? hi) && (hi <=? Z.of_nat (length s))
  then Returns (take (Z.to_nat hi - Z.to_nat lo) (drop (Z.to_nat lo) s))
  else Panics.

(** ** Package [strconv] *)

Module GoStrconv.

(** Range of [int] (64 bits). *)
Definition minInt : Z := - 2 ^ 63.
Definition maxInt : Z := 2 ^ 63 - 1.

Definition digitVal (c : ascii) : option Z :=
  let n := Z.of_nat (nat_of_ascii c) in
  if (48 <=? n) && (n <=? 57) then Some (n - 48) else None.

Fixpoint parseDigits (acc : Z) (s : gostring) : option Z :=
  match s with
  | [] => Some acc
  | c :: s' =>
      match digitVal c with
      | Some d => parseDigits (acc * 10 + d) s'
      | None => None
      end
  end.

(** [Atoi s]: an optional sign, then one or more decimal digits; the
    value must fit [int]. [None] stands for a non-nil error. *)
Definition Atoi (s : gostring) : option Z :=
  let '(neg, ds) :=
    match s with
    | c :: r =>
        if Ascii.eqb c "-" then (true, r)
        else if Ascii.eqb c "+" then (false, r)
        else (false, s)
    | [] => (false, s)
    end in
  match ds with
  | [] => None
  | _ :: _ =>
      match parseDigits 0 ds with
      | Some n =>
          let v := if neg : bool then - n else n in
          if (minInt <=? v) && (v <=? maxInt) then Some v else None
      | None => None
      end
  end.

End GoStrconv.


(** ** Package [regexp]: the pattern of [messageRe]

    Writing Q for the double quote, the pattern compiled into [messageRe]
    is [message=Q], then a capturing group, then [Q]; the group is a
    greedy star over the alternatives [\\.] (a backslash, then any character
    but a line feed) and [[^Q]] (any character but Q), tried in this order.
    Go's [regexp] returns the leftmost match and, among the matches that
    start there, the one a backtracking engine finds first.
    A backslash is always a character of its own in UTF-8 and every byte of
    a multi-byte character is matched by [[^Q]], so matching byte by byte
    finds the same match as matching character by character. *)

Module GoRegexp.

(** The literal start of the pattern: [message=] and a double quote. *)
Definition messageLit : gostring := str "message=" ++ [dquote].

(** [matchGroup s]: the text captured by the group when the rest of
    the pattern, the closing quote, matches after it; [None] when the
    pattern does not match at the start of [s]. *)
Fixpoint matchGroup (s : gostring) : option gostring :=
  match s with
  | [] => None
  | c :: s' =>
      if Ascii.eqb c dquote then Some []
      else if Ascii.eqb c backslash then
        match s' with
        | d :: s'' =>
            if Ascii.eqb d newline then (c ::.) <$> matchGroup s'
            else match matchGroup s'' with
                 | Some g => Some (c :: d :: g)
                 | None => (c ::.) <$> matchGroup s'
                 end
        | [] => (c ::.) <$> matchGroup s'
        end
      else (c ::.) <$> matchGroup s'
  end.

(** [messageRe.FindStringSubmatch s]: [nil] when there is no match, else the
    text of the leftmost match and the text of its group. *)
Fixpoint FindStringSubmatch (s : gostring) : list gostring :=
  match (if GoStrings.HasPrefix s messageLit
         then matchGroup (drop (length messageLit) s) else None) with
  | Some g => [messageLit ++ g ++ [dquote]; g]
  | None =>
      match s with
      | [] => []
      | _ :: s' => FindStringSubmatch s'
      end
  end.

End GoRegexp.

Import GoStrings GoStrconv.

(** ** [phoneagent/helper/parse.go] *)

Section Parse.

(** The type [float64] and [strconv.ParseFloat(s, 64)]; [None] stands for a
    non-nil error. *)
Variable float64 : Type.
Variable ParseFloat : gostring -> option float64.

(** A value of Go's [any], as far as this package builds one. *)
Inductive any : Type :=
  | ANil
  | AString (s : gostring)
  | ABool (b : bool)
  | AInt (i : Z)
  | AFloat (f : float64)
  | AInts (l : list Z).

(** [type Action map[string]any]; a [nil] map is [None] below. *)
Abbreviation Action := (gmap gostring any).

(** The loop over [parts] in the [int[]] case of [parseLiteral]. *)
Fixpoint parseInts (parts : list gostring) (result : list Z) : any * error :=
  match parts with
  | [] => (AInts result, None)
  | p :: parts' =>
      match Atoi (TrimSpace p) with
      | Some v => parseInts parts' (result ++ [v])
      | None => (ANil, Some (str "invalid int in array: " ++ p))
      end
  end.

Definition parseLiteral (s : gostring) : outcome (any * error) :=
  (* string *)
  if HasPrefix s [dquote] && HasSuffix s [dquote] then
    sub ← slice s 1 (Z.of_nat (length s) - 1);
    Returns (AString sub, None)
  (* bool *)
  else if streq s (str "true") then Returns (ABool true, None)
  else if streq s (str "false") then Returns (ABool false, None)
  (* int[] *)
  else if HasPrefix s (str "[") && HasSuffix s (str "]") then
    sub ← slice s 1 (Z.of_nat (length s) - 1);
    let content := TrimSpace sub in
    if streq content [] then Returns (AInts [], None)
    else Returns (parseInts (Split content (str ",")) [])
  else
    (* int *)
    match Atoi (TrimSpace s) with
    | Some i => Returns (AInt i, None)
    | None =>
        (* float *)
        match ParseFloat (TrimSpace s) with
        | Some f => Returns (AFloat f, None)
        | None => Returns (ANil, Some (str "unsupported literal: " ++ s))
        end
    end.

(** The loop over [parts] in [parseDoCall]; [action] is the map built so
    far. *)
Fixpoint parseArgs (parts : list gostring) (action : Action)
  : outcome (option Action * error) :=
  match parts with
  | [] => Returns (Some action, None)
  | part :: parts' =>
      match SplitN2 part (str "=") with
      | [k; v] =>
          let key := TrimSpace k in
          let valStr := TrimSpace v in
          r ← parseLiteral valStr;
          match r with
          | (_, Some err) =>
              Returns (None, Some (str "invalid value for " ++ key ++ str ": " ++ err))
          | (val, None) => parseArgs parts' (<[key := val]> action)
          end
      | _ => Returns (None, Some (str "invalid argument: " ++ part))
      end
  end.

Definition parseDoCall (expr : gostring) : outcome (option Action * error) :=
  if negb (HasPrefix expr (str "do(")) || negb (HasSuffix expr (str ")")) then
    Returns (None, Some (str "invalid do() syntax"))
  else
    let body := TrimSuffix (TrimPrefix expr (str "do(")) (str ")") in
    let action : Action := {[ str "_metadata" := AString (str "do") ]} in
    if streq (TrimSpace body) [] then Returns (Some action, None)
    else parseArgs (Split body (str ", ")) action.

Definition parseFinishMessage (s : gostring) : gostring * error :=
  match GoRegexp.FindStringSubmatch s with
  | _ :: m1 :: _ => (m1, None)
  | _ => ([], Some (str "message not found"))
  end.

Definition ParseAction (rawActionStr : gostring) : outcome (option Action * error) :=
  let rawActionStr := TrimSpace rawActionStr in
  (* case 1: do(action=...) *)
  if HasPrefix rawActionStr (str "do(") then
    r ← parseDoCall rawActionStr;
    match r with
    | (_, Some err) => Returns (None, Some (str "failed to parse do() action: " ++ err))
    | (action, None) => Returns (action, None)
    end
  (* case 2: finish(message=...) *)
  else if HasPrefix rawActionStr (str "finish") then
    match parseFinishMessage rawActionStr with
    | (_, Some err) => Returns (None, Some err)
    | (msg, None) =>
        Returns (Some ({[ str "_metadata" := AString (str "finish");
                          str "message" := AString msg ]} : Action), None)
    end
  else Returns (None, Some (str "failed to parse action: " ++ rawActionStr)).

End Parse.

Arguments parseInts {float64} parts result.
Arguments parseLiteral {float64} ParseFloat s.
Arguments parseArgs {float64} ParseFloat parts action.
Arguments parseDoCall {float64} ParseFloat expr.
Arguments ParseAction {float64} ParseFloat rawActionStr.

Arguments ANil {float64}.
Arguments AString {float64} s.
Arguments ABool {float64} b.
Arguments AInt {float64} i.
Arguments AFloat {float64} f.
Arguments AInts {float64} l.

(** ** The model client: [Request] and [parseResponse] *)

(** [actionMarkers := []string{...}], in this order. *)
Definition actionMarkers : list gostring :=
  [str "finish(message="; str "do(action="].

(** The variables of [Request] that the receive loop updates. [stdout] is
    the text written by [fmt.Print] so far; [thinkingEndSet] tells whether
    [timeToThinkingEnd] is non-nil (the times themselves are not modelled). *)
Record live : Type := Live {
  rawContent : gostring;
  thinkingBuf : gostring;
  inActionPhase : bool;
  firstTokenReceived : bool;
  thinkingEndSet : bool;
  stdout : gostring
}.

Definition live0 : live :=
  {| rawContent := []; thinkingBuf := []; inActionPhase := false;
     firstTokenReceived := false; thinkingEndSet := false; stdout := [] |}.

(** The first marker of [actionMarkers] that the buffer contains: the loop
    [for _, marker := range actionMarkers] with its [break]. *)
Definition foundMarker (thinkingBufStr : gostring) : option gostring :=
  find (Contains thinkingBufStr) actionMarkers.

(** [isPotentialMarker]: the buffer ends with [marker[:i]] for some marker
    and some [1 <= i < len(marker)]. *)
Definition isPotentialMarker (thinkingBufStr : gostring) : bool :=
  existsb (fun marker =>
    existsb (fun i => HasSuffix thinkingBufStr (take i marker))
            (seq 1 (length marker - 1)))
    actionMarkers.

(** One iteration of the receive loop, from [delta := ...Delta.Content] on. *)
Definition onDelta (st : live) (delta : gostring) : live :=
  if streq delta [] then st
  else
    let raw := rawContent st ++ delta in
    if inActionPhase st then
      {| rawContent := raw; thinkingBuf := thinkingBuf st;
         inActionPhase := true; firstTokenReceived := true;
         thinkingEndSet := thinkingEndSet st; stdout := stdout st |}
    else
      (* for print thinking part *)
      let thinkingBufStr := thinkingBuf st ++ delta in
      match foundMarker thinkingBufStr with
      | Some marker =>
          (* before marker is the thinking part *)
          let thinkingPart := hd [] (SplitN2 thinkingBufStr marker) in
          {| rawContent := raw; thinkingBuf := thinkingBufStr;
             inActionPhase := true; firstTokenReceived := true;
             thinkingEndSet := true; stdout := stdout st ++ thinkingPart |}
      | None =>
          if isPotentialMarker thinkingBufStr then
            {| rawContent := raw; thinkingBuf := thinkingBufStr;
               inActionPhase := false; firstTokenReceived := true;
               thinkingEndSet := thinkingEndSet st; stdout := stdout st |}
          else
            (* Safe to print the thinking part *)
            {| rawContent := raw; thinkingBuf := [];
               inActionPhase := false; firstTokenReceived := true;
               thinkingEndSet := thinkingEndSet st;
               stdout := stdout st ++ thinkingBufStr |}
      end.

(** A response of the stream: the [Delta.Content] of each of its choices. *)
Abbreviation response := (list gostring).

(** One iteration of the receive loop for a response that [stream.Recv]
    returned without error. *)
Definition onResponse (st : live) (resp : response) : live :=
  match resp with
  | [] => st
  | delta :: _ => onDelta st delta
  end.

(** The receive loop on a stream that delivers [resps] and then [io.EOF]. *)
Definition recvLoop (st : live) (resps : list response) : live :=
  fold_left onResponse resps st.

(** The stream whose responses carry the chunks [chunks], one choice each. *)
Definition chunked (chunks : list gostring) : list response :=
  map (fun delta => [delta]) chunks.

(** The live segmenter run on the chunks [chunks]. *)
Definition segment (chunks : list gostring) : live :=
  recvLoop live0 (chunked chunks).

(** Number of iterations of the receive loop that move from the thinking
    phase to the action phase. *)
Fixpoint phaseFlips (st : live) (resps : list response) : nat :=
  match resps with
  | [] => 0%nat
  | resp :: resps' =>
      let st' := onResponse st resp in
      ((if negb (inActionPhase st) && inActionPhase st' then 1 else 0)
       + phaseFlips st' resps')%nat
  end.

(** Index expression [parts[i]]: a run-time panic when out of range. *)
Definition index (parts : list gostring) (i : nat) : outcome gostring :=
  match parts !! i with
  | Some x => Returns x
  | None => Panics
  end.

Definition parseResponse (content : gostring) : outcome (gostring * gostring) :=
  (* Rule 1: Check for finish(message= *)
  if Contains content (str "finish(message=") then
    let parts := SplitN2 content (str "finish(message=") in
    p0 ← index parts 0; p1 ← index parts 1;
    Returns (TrimSpace p0, str "finish(message=" ++ p1)
  (* Rule 2: Check for do(action= *)
  else if Contains content (str "do(action=") then
    let parts := SplitN2 content (str "do(action=") in
    p0 ← index parts 0; p1 ← index parts 1;
    Returns (TrimSpace p0, str "do(action=" ++ p1)
  (* Rule 3: Fallback to legacy XML tag parsing *)
  else if Contains content (str "<answer>") then
    let parts := SplitN2 content (str "<answer>") in
    p0 ← index parts 0; p1 ← index parts 1;
    let thinking :=
      TrimSpace (ReplaceAll (ReplaceAll p0 (str "<think>") []) (str "</think>") []) in
    let action := TrimSpace (ReplaceAll p1 (str "</answer>") []) in
    Returns (thinking, action)
  (* Rule 4: No markers found, return content as action *)
  else Returns ([], content).

(** What [stream.Recv] returns: a response, or an error other than
    [io.EOF]. The end of a list of such events stands for [io.EOF]. *)
Inductive recv : Type :=
  | RecvResponse (resp : response)
  | RecvError (err : gostring).

(** The receive loop of [Request] with its two exits: [break] on [io.EOF]
    and [return nil, err] on any other error. *)
Fixpoint receive (st : live) (events : list recv) : live * error :=
  match events with
  | [] => (st, None)
  | RecvResponse resp :: events' => receive (onResponse st resp) events'
  | RecvError err :: _ => (st, Some err)
  end.

(** [ModelResponse], without the measured times: [TimeToFirstToken] and
    [TimeToThinkingEnd] tell whether the pointer of that name is non-nil. *)
Record ModelResponse : Type := {
  Thinking : gostring;
  Action : gostring;
  RawContent : gostring;
  TimeToFirstToken : bool;
  TimeToThinkingEnd : bool
}.

(** [Request]: [createErr] is the error of [CreateChatCompletionStream],
    [events] what the stream then delivers. *)
Definition Request (createErr : error) (events : list recv)
  : outcome (option ModelResponse * error) :=
  match createErr with
  | Some err => Returns (None, Some err)
  | None =>
      match receive live0 events with
      | (_, Some err) => Returns (None, Some err)
      | (st, None) =>
          (* parse thinking and action from raw content *)
          r ← parseResponse (rawContent st);
          Returns (Some {| Thinking := r.1; Action := r.2;
                           RawContent := rawContent st;
                           TimeToFirstToken := firstTokenReceived st;
                           TimeToThinkingEnd := thinkingEndSet st |}, None)
      end
  end.

(** ** Vocabulary of the statements *)

(** [m] occurs in [s] at byte offset [j]. *)
Definition occursAt (s m : gostring) (j : nat) : Prop :=
  exists a b, s = a ++ m ++ b /\ length a = j.

(** The texts the group of [messageRe] can capture: any sequence of
    escapes (a backslash and a character other than a line feed) and of
    characters other than the double quote. *)
Inductive groupText : gostring -> Prop :=
  | groupText_nil : groupText []
  | groupText_escape d g :
      d <> newline -> groupText g -> groupText (backslash :: d :: g)
  | groupText_char c g :
      c <> dquote -> groupText g -> groupText (c :: g).

(** The pattern of [messageRe] matches somewhere in [s]. *)
Definition matchesMessage (s : gostring) : Prop :=
  exists a g b,
    s = a ++ GoRegexp.messageLit ++ g ++ [dquote] ++ b /\ groupText g.

(** An instance of the parameters for running the parser on examples: a
    [ParseFloat] that knows two numerals. *)
Inductive sampleFloat : Type := Half | OneAndHalf.

Definition sampleParseFloat (s : gostring) : option sampleFloat :=
  if streq s (str "0.5") then Some Half
  else if streq s (str "1.5") then Some OneAndHalf
  else None.

(** [quoted s]: the text [s] between double quotes. *)
Definition quoted (s : gostring) : gostring := [dquote] ++ s ++ [dquote].

(** A byte that occurs in no encoding of a white space character. *)
Definition plainByte (c : ascii) : bool :=
  forallb (fun r => negb (existsb (Ascii.eqb c) r)) spaceRunes.

(** Number of occurrences of the byte [c] in [s]. *)
Definition countByte (c : ascii) (s : gostring) : nat :=
  length (filter (fun d => Ascii.eqb c d = true) s).

(** A candidate argument token that [parseDoCall] does not accept: it has
    no [=], or the literal parser returns an error for its value token. *)
Definition badToken {float64 : Type} (ParseFloat : gostring -> option float64)
    (part : gostring) : Prop :=
  Contains part (str "=") = false
  \/ exists k v x e, Cut part (str "=") = Some (k, v)
       /\ parseLiteral ParseFloat (TrimSpace v) = Returns (x, Some e).

(** [off] is the text that makes the token [part] unacceptable: the token
    itself when it has no [=], else the value token that is no literal or
    the element of the bracketed list that is no integer. *)
Definition offending {float64 : Type} (ParseFloat : gostring -> option float64)
    (part off : gostring) : Prop :=
  (Contains part (str "=") = false /\ off = part)
  \/ exists k v, Cut part (str "=") = Some (k, v)
       /\ ((off = TrimSpace v
            /\ parseLiteral ParseFloat off
               = Returns (ANil, Some (str "unsupported literal: " ++ off)))
           \/ (Contains (TrimSpace v) off = true /\ Atoi (TrimSpace off) = None
               /\ parseLiteral ParseFloat (TrimSpace v)
                  = Returns (ANil, Some (str "invalid int in array: " ++ off)))).

(** A sample input of the [finish] form. *)
Definition finishSample : gostring :=
  str "finished: message=" ++ quoted (str "a" ++ [backslash; dquote] ++ str "b")
    ++ str " and more".

(** All the ways to cut [s] into non-empty chunks. *)
Fixpoint compositions (s : gostring) : list (list gostring) :=
  match s with
  | [] => [[]]
  | c :: s' =>
      flat_map (fun l =>
        match l with
        | [] => [[[c]]]
        | chunk :: rest => [(c :: chunk) :: rest; [c] :: chunk :: rest]
        end) (compositions s')
  end.

(** The chunks of a stream other than the empty ones. *)
Definition nonempty (chunks : list gostring) : list gostring :=
  List.filter (fun d => negb (streq d [])) chunks.

(** Some chunk of [chunks] ends right after the first [n] bytes. *)
Definition boundaryAt (n : nat) (chunks : list gostring) : bool :=
  existsb (fun k => Nat.eqb (length (concat (take k chunks))) n)
          (seq 0 (S (length chunks))).

(** The printed text [out] ends strictly inside an occurrence of a marker
    in the stream [T]: part of the marker is printed, part is not. *)
Definition partlyPrinted (T out : gostring) : Prop :=
  exists m a, In m actionMarkers /\ occursAt T m a
    /\ (a < length out < a + length m)%nat.

(** What holds of the variables of the receive loop while it consumes the
    stream [T]. *)
Definition liveInv (T : gostring) (st : live) : Prop :=
  (exists future, T = rawContent st ++ future)
  /\ ~ partlyPrinted T (stdout st)
  /\ if inActionPhase st
     then exists m rest, In m actionMarkers /\ rawContent st = stdout st ++ m ++ rest
     else rawContent st = stdout st ++ thinkingBuf st
          /\ forall m, In m actionMarkers -> Contains (rawContent st) m = false.

(** No marker continues with the first byte of a marker. *)
Definition markersApart : bool :=
  forallb (fun m =>
    forallb (fun m1 =>
      forallb (fun j => negb (bool_decide (m !! j = m1 !! 0%nat)))
              (seq 1 (length m - 1)))
      actionMarkers)
    actionMarkers.

(** The stream that delivers [s] one byte at a time. *)
Definition byteByByte (s : gostring) : list gostring := map (fun c => [c]) s.

(** What the live segmenter does on a stream that is a way of cutting the
    text [hello do(]. *)
Definition helloCheck (chunks : list gostring) : bool :=
  negb (inActionPhase (segment chunks))
  && Nat.eqb (phaseFlips live0 (chunked chunks)) 0
  && HasPrefix (str "hello ") (stdout (segment chunks))
  && Bool.eqb (streq (stdout (segment chunks)) (str "hello ")) (boundaryAt 6 chunks).

(** ** The serializer of the round trip

    The repository has no function that writes an Action back as text; the
    one below follows the literal grammar of the parser, one form per kind
    of value. *)







(** The key of an argument token, as [parseDoCall] reads it. *)
Definition keyOf (part : gostring) : gostring :=
  TrimSpace (hd [] (SplitN2 part (str "="))).

(** The keys of the argument list [body] of a [do(...)] expression, in the
    order of their tokens. *)
Definition argKeys (body : gostring) : list gostring :=
  if streq (TrimSpace body) [] then [] else map keyOf (Split body (str ", ")).

(** The values that the literal parser produces from a token without
    comma-space. *)
Definition goodValue {float64 : Type} (ParseFloat : gostring -> option float64)
    (v : any float64) : Prop :=
  match v with
  | ANil => False
  | AString s => Contains s (str ", ") = false
  | ABool _ => True
  | AInt i => minInt <= i <= maxInt
  | AFloat f => exists s, ParseFloat s = Some f
  | AInts l => Forall (fun i => minInt <= i <= maxInt) l
  end.







(** The argument list of the expression [expr], as [parseDoCall] takes it. *)
Definition doBody (expr : gostring) : gostring :=
  TrimSuffix (TrimPrefix expr (str "do(")) (str ")").

(** A text in which every backslash starts an escape (a backslash and a
    character other than a line feed) and no double quote stands outside an
    escape. *)
Inductive wellEscaped : gostring -> Prop :=
  | wellEscaped_nil : wellEscaped []
  | wellEscaped_escape d g :
      d <> newline -> wellEscaped g -> wellEscaped (backslash :: d :: g)
  | wellEscaped_char c g :
      c <> dquote -> c <> backslash -> wellEscaped g -> wellEscaped (c :: g).

(** The values an Action holds: never nil, and integers that fit [int]. *)
Definition typedValue {float64 : Type} (v : any float64) : Prop :=
  match v with
  | ANil => False
  | AInt i => minInt <= i <= maxInt
  | AInts l => Forall (fun i => minInt <= i <= maxInt) l
  | _ => True
  end.

(** What holds of the text the receive loop holds back while it is in the
    thinking phase: the buffer is empty or ends with the start of a marker,
    and the printed text does not end with the start of a marker. *)
Definition heldInv (st : live) : Prop :=
  inActionPhase st = false ->
  (thinkingBuf st = [] \/ isPotentialMarker (thinkingBuf st) = true)
  /\ isPotentialMarker (stdout st) = false.

(** A text made of white space only: encodings of space characters, one
    after the other. *)
Definition spaces (ws : gostring) : Prop :=
  exists rs, Forall (fun r => In r spaceRunes) rs /\ ws = concat rs.

(** * Properties *)

(** ** Facts about the string functions *)

Lemma HasPrefix_prefix (s p : gostring) :
  HasPrefix s p = true <-> p `prefix_of` s.
Proof.
  revert s; induction p as [|c p IH]; intros s; simpl.
  - split; [intros _; apply prefix_nil | done].
  - destruct s as [|d s].
    + split; [done | intros H; by apply prefix_nil_not in H].
    + rewrite andb_true_iff, Ascii.eqb_eq, IH. split.
      * intros [-> H]. by apply prefix_cons.
      * intros H. split; [symmetry; by eapply prefix_cons_inv_1 | by eapply prefix_cons_inv_2].
Qed.

Lemma HasPrefix_app (p r : gostring) : HasPrefix (p ++ r) p = true.
Proof. apply HasPrefix_prefix. by apply prefix_app_r. Qed.

Lemma HasSuffix_suffix (s p : gostring) :
  HasSuffix s p = true <-> p `suffix_of` s.
Proof.
  unfold HasSuffix. rewrite HasPrefix_prefix. split.
  - intros [r Hr]. exists (rev r).
    rewrite <- (rev_involutive s), Hr, rev_app_distr. by rewrite rev_involutive.
  - intros [r ->]. exists (rev r). by rewrite rev_app_distr.
Qed.

Lemma HasSuffix_app (r p : gostring) : HasSuffix (r ++ p) p = true.
Proof. apply HasSuffix_suffix. by apply suffix_app_r. Qed.

Lemma bind_Returns {A B} (a : A) (k : A -> outcome B) :
  (Returns a ≫= k) = k a.
Proof. reflexivity. Qed.

Lemma streq_true (a b : gostring) : streq a b = true <-> a = b.
Proof. unfold streq. apply bool_decide_eq_true. Qed.

Lemma streq_false (a b : gostring) : streq a b = false <-> a <> b.
Proof. unfold streq. apply bool_decide_eq_false. Qed.

Lemma occursAt_drop (s m : gostring) (j : nat) :
  occursAt s m j <-> (j <= length s)%nat /\ HasPrefix (drop j s) m = true.
Proof.
  split.
  - intros (a & b & -> & <-). split.
    + rewrite length_app. lia.
    + rewrite drop_app_length. apply HasPrefix_app.
  - intros [Hj H]. apply HasPrefix_prefix in H as [b Hb].
    exists (take j s), b. split.
    + by rewrite <- Hb, take_drop.
    + rewrite length_take. lia.
Qed.

Lemma occursAt_0 (s m : gostring) : occursAt s m 0 <-> HasPrefix s m = true.
Proof.
  rewrite occursAt_drop. simpl. rewrite drop_0. split; [tauto | split; [lia | done]].
Qed.

Lemma occursAt_S (c : ascii) (s m : gostring) (j : nat) :
  occursAt (c :: s) m (S j) <-> occursAt s m j.
Proof. rewrite !occursAt_drop. simpl. split; intros []; split; auto; lia. Qed.

(** [Index] returns the offset of the first occurrence. *)
Lemma Index_Some (s m : gostring) (j : nat) :
  Index s m = Some j <->
  occursAt s m j /\ forall k, (k < j)%nat -> ~ occursAt s m k.
Proof.
  revert j; induction s as [|c s IH]; intros j.
  - simpl. destruct (HasPrefix [] m) eqn:E.
    + split.
      * intros [= <-]. split; [by apply occursAt_0 | intros; lia].
      * intros [H1 H2]. destruct j; [done|].
        exfalso. apply (H2 0%nat); [lia | by apply occursAt_0].
    + split; [done|]. intros [H1 _]. apply occursAt_drop in H1 as [Hj H1].
      simpl in Hj. assert (j = 0%nat) as -> by lia. simpl in H1. congruence.
  - cbn [Index]. destruct (HasPrefix (c :: s) m) eqn:E.
    + split.
      * intros [= <-]. split; [by apply occursAt_0 | intros; lia].
      * intros [H1 H2]. destruct j; [done|].
        exfalso. apply (H2 0%nat); [lia | by apply occursAt_0].
    + destruct j as [|j].
      * split.
        -- destruct (Index s m); done.
        -- intros [H1 _]. apply occursAt_0 in H1. congruence.
      * rewrite occursAt_S. split.
        -- intros H. specialize (IH j).
           destruct (Index s m) as [i|]; [|done].
           simpl in H. injection H as ->. destruct IH as [[H1 H2] _]; [done|].
           split; [done|]. intros [|k] Hk.
           ++ rewrite occursAt_0. congruence.
           ++ rewrite occursAt_S. apply H2. lia.
        -- intros [H1 H2].
           assert (Index s m = Some j) as ->; [|done].
           apply IH. split; [done|]. intros k Hk Hocc.
           apply (H2 (S k)); [lia | by apply occursAt_S].
Qed.

Lemma Index_None (s m : gostring) :
  Index s m = None <-> forall k, ~ occursAt s m k.
Proof.
  split.
  - intros HN k. induction k as [k IHk] using lt_wf_ind. intros Hocc.
    assert (Index s m = Some k) as E; [|congruence].
    apply Index_Some. split; [done|]. intros j Hj. by apply IHk.
  - intros H. destruct (Index s m) as [j|] eqn:E; [|done].
    apply Index_Some in E as [E _]. by apply H in E.
Qed.

Lemma Contains_occurs (s m : gostring) :
  Contains s m = true <-> exists k, occursAt s m k.
Proof.
  unfold Contains. destruct (Index s m) as [j|] eqn:E.
  - apply Index_Some in E as [E _]. split; [eauto | done].
  - split; [done|]. intros [k Hk]. exfalso. revert Hk. by apply Index_None.
Qed.

(** Cutting at the first occurrence. *)
Lemma Cut_first (pre m post : gostring) :
  (forall k, (k < length pre)%nat -> ~ occursAt (pre ++ m ++ post) m k) ->
  Cut (pre ++ m ++ post) m = Some (pre, post).
Proof.
  intros Hfirst. unfold Cut.
  assert (Index (pre ++ m ++ post) m = Some (length pre)) as ->.
  { apply Index_Some. split; [by exists pre, post | done]. }
  f_equal. f_equal.
  - by rewrite take_app_length.
  - rewrite app_assoc, <- length_app. by rewrite drop_app_length.
Qed.

(** ** Facts about [TrimSpace] *)

Section TrimLead.

Variable runes : list gostring.
Hypothesis runes_nonempty : Forall (fun r => r <> []) runes.

Lemma leadLen_0 (s : gostring) :
  leadLen runes s = 0%nat <-> forall r, In r runes -> HasPrefix s r = false.
Proof using runes_nonempty.
  unfold leadLen. destruct (find (HasPrefix s) runes) as [r|] eqn:E.
  - apply find_some in E as [Hin Hp]. split.
    + intros Hlen. rewrite Forall_forall in runes_nonempty.
      apply list_elem_of_In in Hin.
      specialize (runes_nonempty r Hin). by destruct r.
    + intros H. rewrite (H r Hin) in Hp. done.
  - split; [|done]. intros _ r Hin. by apply (find_none _ _ E).
Qed.

Lemma trimLead_fix (n : nat) (s : gostring) :
  leadLen runes s = 0%nat -> trimLead n runes s = s.
Proof. intros H. destruct n; simpl; [done|]. by rewrite H. Qed.

Lemma trimLead_suffix (n : nat) (s : gostring) :
  exists a, s = a ++ trimLead n runes s.
Proof.
  revert s; induction n as [|n IH]; intros s; simpl.
  - by exists [].
  - destruct (leadLen runes s) as [|k] eqn:E; [by exists []|].
    destruct (IH (drop (S k) s)) as [a Ha].
    exists (take (S k) s ++ a). rewrite <- app_assoc, <- Ha. by rewrite take_drop.
Qed.

Lemma trimLead_done (n : nat) (s : gostring) :
  (length s <= n)%nat -> leadLen runes (trimLead n runes s) = 0%nat.
Proof using runes_nonempty.
  revert s; induction n as [|n IH]; intros s Hn; simpl.
  - destruct s; [|simpl in Hn; lia].
    apply leadLen_0. intros r Hin.
    rewrite Forall_forall in runes_nonempty. apply list_elem_of_In in Hin.
    specialize (runes_nonempty r Hin). by destruct r.
  - destruct (leadLen runes s) as [|k] eqn:E; [done|].
    apply IH. rewrite length_drop. lia.
Qed.

(** A last byte that occurs in no rune is never trimmed. *)
Lemma trimLead_keeps_last (c : ascii) (n : nat) (t : gostring) :
  (forall r, In r runes -> ~ In c r) ->
  exists t', trimLead n runes (t ++ [c]) = t' ++ [c].
Proof.
  intros Hc. revert t; induction n as [|n IH]; intros t; simpl.
  - by exists t.
  - unfold leadLen. destruct (find (HasPrefix (t ++ [c])) runes) as [r|] eqn:E.
    + apply find_some in E as [Hin Hp].
      destruct (length r) as [|k] eqn:Hk; [by exists t|].
      apply HasPrefix_prefix in Hp as [b Hb].
      destruct (decide (length r <= length t)%nat) as [Hle|Hgt].
      * rewrite drop_app_le by lia. apply IH.
      * exfalso. apply (Hc r Hin).
        assert (length (t ++ [c]) = length (r ++ b)) as Hl by by rewrite Hb.
        rewrite !length_app in Hl. simpl in Hl.
        assert (b = []) as -> by (destruct b; [done | simpl in Hl; lia]).
        rewrite app_nil_r in Hb. rewrite <- Hb. apply in_or_app. right. by left.
    + by exists t.
Qed.

End TrimLead.

Lemma spaceRunes_nonempty : Forall (fun r : gostring => r <> []) spaceRunes.
Proof. unfold spaceRunes. simpl. repeat constructor; discriminate. Qed.

Lemma revRunes_nonempty :
  Forall (fun r : gostring => r <> []) (map (@rev ascii) spaceRunes).
Proof. unfold spaceRunes. simpl. repeat constructor; discriminate. Qed.

Lemma plainByte_spec (c : ascii) :
  plainByte c = true -> forall r, In r spaceRunes -> ~ In c r.
Proof.
  unfold plainByte. rewrite forallb_forall. intros H r Hin Hc.
  specialize (H r Hin). apply negb_true_iff in H.
  assert (existsb (Ascii.eqb c) r = true); [|congruence].
  apply existsb_exists. exists c. split; [done | apply Ascii.eqb_refl].
Qed.

Lemma plainByte_spec_rev (c : ascii) :
  plainByte c = true -> forall r, In r (map (@rev ascii) spaceRunes) -> ~ In c r.
Proof.
  intros H r Hin Hc. apply in_map_iff in Hin as (r0 & <- & Hin).
  apply (plainByte_spec c H r0 Hin). by apply in_rev.
Qed.

Lemma leadLen_plain (runes : list gostring) (c : ascii) (r : gostring) :
  Forall (fun r => r <> []) runes ->
  (forall r, In r runes -> ~ In c r) ->
  leadLen runes (c :: r) = 0%nat.
Proof.
  intros Hne Hc. apply leadLen_0; [done|]. intros p Hin.
  destruct (HasPrefix (c :: r) p) eqn:E; [|done]. exfalso.
  apply HasPrefix_prefix in E as [b Hb].
  rewrite Forall_forall in Hne. pose proof (Hin' := Hin).
  apply list_elem_of_In in Hin'. specialize (Hne p Hin').
  destruct p as [|d p]; [done|]. simpl in Hb. injection Hb as -> _.
  apply (Hc _ Hin). by left.
Qed.

(** [TrimSpace] returns a substring of its argument... *)
Lemma TrimSpace_substring (s : gostring) :
  exists a b, s = a ++ TrimSpace s ++ b.
Proof.
  unfold TrimSpace, TrimRightSpace, TrimLeftSpace.
  destruct (trimLead_suffix spaceRunes (length s) s) as [a Ha].
  set (t := trimLead (length s) spaceRunes s) in *.
  destruct (trimLead_suffix (map (@rev ascii) spaceRunes) (length t) (rev t)) as [b Hb].
  exists a, (rev b). rewrite <- rev_app_distr, <- Hb, rev_involutive. done.
Qed.

(** ... that neither starts nor ends with a white space character. *)
Lemma TrimSpace_trimmed (s : gostring) :
  leadLen spaceRunes (TrimSpace s) = 0%nat /\
  leadLen (map (@rev ascii) spaceRunes) (rev (TrimSpace s)) = 0%nat.
Proof.
  unfold TrimSpace, TrimRightSpace, TrimLeftSpace.
  set (t := trimLead (length s) spaceRunes s).
  assert (leadLen spaceRunes t = 0%nat) as Ht
    by (apply trimLead_done; [apply spaceRunes_nonempty | done]).
  set (u := trimLead (length t) (map (@rev ascii) spaceRunes) (rev t)).
  assert (leadLen (map (@rev ascii) spaceRunes) u = 0%nat) as Hu.
  { apply trimLead_done; [apply revRunes_nonempty | by rewrite length_rev]. }
  split; [|by rewrite rev_involutive].
  apply leadLen_0; [apply spaceRunes_nonempty|]. intros r Hin.
  destruct (HasPrefix (rev u) r) eqn:E; [|done].
  apply HasPrefix_prefix in E as [b Hb].
  destruct (trimLead_suffix (map (@rev ascii) spaceRunes) (length t) (rev t)) as [a Ha].
  fold u in Ha.
  assert (HasPrefix t r = true) as Hp.
  { apply HasPrefix_prefix. exists (b ++ rev a).
    rewrite <- (rev_involutive t), Ha, rev_app_distr, Hb. by rewrite <- app_assoc. }
  by rewrite (proj1 (leadLen_0 _ spaceRunes_nonempty t) Ht r Hin) in Hp.
Qed.

Lemma TrimSpace_fix (s : gostring) :
  leadLen spaceRunes s = 0%nat ->
  leadLen (map (@rev ascii) spaceRunes) (rev s) = 0%nat ->
  TrimSpace s = s.
Proof.
  intros H1 H2. unfold TrimSpace, TrimRightSpace, TrimLeftSpace.
  rewrite (trimLead_fix _ _ _ H1), (trimLead_fix _ _ _ H2).
  apply rev_involutive.
Qed.

Lemma TrimSpace_idem (s : gostring) : TrimSpace (TrimSpace s) = TrimSpace s.
Proof. destruct (TrimSpace_trimmed s). by apply TrimSpace_fix. Qed.


Lemma TrimSpace_plain1 (c : ascii) :
  plainByte c = true -> TrimSpace [c] = [c].
Proof.
  intros Hc. apply TrimSpace_fix.
  - apply leadLen_plain; [apply spaceRunes_nonempty | by apply plainByte_spec].
  - simpl. apply leadLen_plain; [apply revRunes_nonempty | by apply plainByte_spec_rev].
Qed.

(** A plain first byte stays the first byte. *)
Lemma TrimSpace_head (c : ascii) (r : gostring) :
  plainByte c = true -> exists r', TrimSpace (c :: r) = c :: r'.
Proof.
  intros Hc. unfold TrimSpace, TrimLeftSpace.
  rewrite trimLead_fix
    by (apply leadLen_plain; [apply spaceRunes_nonempty | by apply plainByte_spec]).
  unfold TrimRightSpace. change (rev (c :: r)) with (rev r ++ [c]).
  destruct (trimLead_keeps_last (map (@rev ascii) spaceRunes) c
              (length (c :: r)) (rev r) (plainByte_spec_rev c Hc)) as [t' ->].
  exists (rev t'). by rewrite rev_app_distr.
Qed.

(** ** Cutting and splitting *)

Lemma Cut_Some (s m before after : gostring) :
  Cut s m = Some (before, after) ->
  s = before ++ m ++ after /\
  forall k, (k < length before)%nat -> ~ occursAt s m k.
Proof.
  unfold Cut. destruct (Index s m) as [j|] eqn:E; [|done].
  intros [= <- <-]. apply Index_Some in E as [(a & b & -> & <-) Hfirst].
  rewrite take_app_length. split.
  - f_equal. rewrite app_assoc, <- length_app. by rewrite drop_app_length.
  - done.
Qed.

Lemma Cut_None (s m : gostring) :
  Cut s m = None <-> Contains s m = false.
Proof. unfold Cut, Contains. destruct (Index s m); split; done. Qed.

Lemma Contains_app (a m b : gostring) : Contains (a ++ m ++ b) m = true.
Proof. apply Contains_occurs. exists (length a). by exists a, b. Qed.

Lemma Contains_self_suffix (a m : gostring) : Contains (a ++ m) m = true.
Proof. rewrite <- (app_nil_r (a ++ m)), <- app_assoc. apply Contains_app. Qed.

Lemma Contains_refl (s : gostring) : Contains s s = true.
Proof.
  apply Contains_occurs. exists 0%nat, [], []. split; [by rewrite app_nil_r | done].
Qed.

Lemma Contains_trans (s t u : gostring) :
  Contains s t = true -> Contains t u = true -> Contains s u = true.
Proof.
  rewrite !Contains_occurs. intros (j & a & b & -> & _) (k & c & d & -> & _).
  exists (length (a ++ c)), (a ++ c), (d ++ b). split; [|done].
  by rewrite <- !app_assoc.
Qed.

Lemma Contains_TrimSpace (s : gostring) : Contains s (TrimSpace s) = true.
Proof.
  destruct (TrimSpace_substring s) as (a & b & H).
  rewrite H at 1. apply Contains_app.
Qed.

(** An occurrence of a one-byte separator in front of the end of [a]
    lies within [a]. *)
Lemma occursAt_byte_app (a b : gostring) (c : ascii) (j : nat) :
  (j < length a)%nat -> occursAt (a ++ b) [c] j -> occursAt a [c] j.
Proof.
  intros Hj (x & y & Hxy & Hx).
  apply occursAt_drop. split; [lia|]. apply HasPrefix_prefix.
  assert ((a ++ b) !! j = Some c) as Hc.
  { rewrite Hxy, lookup_app_r by lia. by rewrite Hx, Nat.sub_diag. }
  rewrite lookup_app_l in Hc by done.
  exists (drop (S j) a). simpl. by apply drop_S.
Qed.

Lemma Cut_byte (k v : gostring) (c : ascii) :
  Contains k [c] = false -> Cut (k ++ [c] ++ v) [c] = Some (k, v).
Proof.
  intros Hk. apply Cut_first. intros j Hj Hocc.
  apply occursAt_byte_app in Hocc; [|done].
  assert (Contains k [c] = true); [|congruence].
  apply Contains_occurs. eauto.
Qed.

(** The pieces of a split are substrings. *)
Lemma genSplit_substring (n : nat) (s m p : gostring) :
  In p (genSplit n s m) -> Contains s p = true.
Proof.
  revert s; induction n as [|n IH]; intros s; simpl.
  - intros [<-|[]]. rewrite <- (app_nil_l s) at 1. apply Contains_self_suffix.
  - destruct (Cut s m) as [[before after]|] eqn:E.
    + apply Cut_Some in E as [-> _]. intros [<-|Hin].
      * apply (Contains_app [] before (m ++ after)).
      * apply IH in Hin. eapply Contains_trans; [|exact Hin].
        rewrite app_assoc. apply Contains_self_suffix.
    + intros [<-|[]]. rewrite <- (app_nil_l s) at 1. apply Contains_self_suffix.
Qed.

(** ** The authoritative split *)

Lemma index_SplitN2_cut (s m before after : gostring) :
  Cut s m = Some (before, after) ->
  index (SplitN2 s m) 0 = Returns before /\ index (SplitN2 s m) 1 = Returns after.
Proof. unfold SplitN2. by intros ->. Qed.

(** C3. Whenever the response text contains [finish(message=],
    [parseResponse] returns the trimmed text before the first occurrence of
    that marker as thinking and the text from that marker to the end as
    action; occurrences of [do(action=], before or after, play no role. *)
Theorem parseResponse_finish_priority (content pre post : gostring) :
  content = pre ++ str "finish(message=" ++ post ->
  (forall k, (k < length pre)%nat -> ~ occursAt content (str "finish(message=") k) ->
  parseResponse content = Returns (TrimSpace pre, str "finish(message=" ++ post).
Proof.
  intros -> Hfirst. unfold parseResponse.
  assert (Contains (pre ++ str "finish(message=" ++ post) (str "finish(message=") = true) as ->.
  { apply Contains_occurs. exists (length pre). by exists pre, post. }
  destruct (index_SplitN2_cut _ _ _ _ (Cut_first pre _ post Hfirst)) as [-> ->].
  reflexivity.
Qed.

(** A response in which [do(action=] comes first and [finish(message=]
    later: the split is made at [finish(message=]. *)
Lemma parseResponse_finish_priority_witness :
  parseResponse (str "tap it do(action=Tap) then finish(message=ok)")
  = Returns (str "tap it do(action=Tap) then", str "finish(message=ok)").
Proof.
  apply (parseResponse_finish_priority _ (str "tap it do(action=Tap) then ") (str "ok)")).
  - reflexivity.
  - apply (proj1 (Index_Some _ _ _)). vm_compute. reflexivity.
Defined.

(** ** The literal parser *)

Lemma ends_shape (a b : ascii) (s : gostring) :
  HasPrefix s [a] = true -> HasSuffix s [b] = true ->
  (s = [a] /\ a = b) \/ exists m, s = a :: m ++ [b].
Proof.
  intros H1 H2. apply HasPrefix_prefix in H1 as [r ->].
  apply HasSuffix_suffix in H2 as [k Hk]. simpl in Hk.
  destruct k as [|c k]; simpl in Hk.
  - injection Hk as -> ->. by left.
  - injection Hk as <- ->. right. by exists k.
Qed.

Lemma slice_mid (a b : ascii) (m : gostring) :
  slice (a :: m ++ [b]) 1 (Z.of_nat (length (a :: m ++ [b])) - 1) = Returns m.
Proof.
  unfold slice. simpl length. rewrite length_app. simpl length.
  destruct (_ && _ && _) eqn:E.
  - f_equal. change (Z.to_nat 1) with 1%nat. simpl drop.
    replace (Z.to_nat _ - 1)%nat with (length m) by lia.
    apply take_app_length.
  - exfalso. rewrite !andb_false_iff, !Z.leb_gt in E. lia.
Qed.

Section ParseProps.

Context {float64 : Type} (ParseFloat : gostring -> option float64).

Lemma parseInts_shape (parts : list gostring) (result : list Z)
    (v : any float64) (e : error) :
  parseInts parts result = (v, e) ->
  (exists l, v = AInts l /\ e = None)
  \/ (v = ANil /\ exists p, In p parts /\ Atoi (TrimSpace p) = None
                         /\ e = Some (str "invalid int in array: " ++ p)).
Proof.
  revert result; induction parts as [|p parts IH]; intros result; simpl.
  - intros [= <- <-]. left. eauto.
  - destruct (Atoi (TrimSpace p)) as [i|] eqn:E.
    + intros H. apply IH in H as [H|(-> & p' & Hin & Hp & ->)]; [by left|].
      right. split; [done|]. exists p'. auto.
    + intros [= <- <-]. right. split; [done|]. exists p. auto.
Qed.

(** The quoted-string case. *)
Lemma parseLiteral_quoted (t : gostring) :
  parseLiteral ParseFloat (quoted t) = Returns (AString t, None).
Proof.
  unfold parseLiteral, quoted.
  assert (HasPrefix ([dquote] ++ t ++ [dquote]) [dquote] = true) as -> by apply HasPrefix_app.
  assert (HasSuffix ([dquote] ++ t ++ [dquote]) [dquote] = true) as ->
    by (rewrite app_assoc; apply HasSuffix_app).
  simpl andb. cbv iota. change ([dquote] ++ t ++ [dquote]) with (dquote :: t ++ [dquote]).
  by rewrite slice_mid.
Qed.

(** The only token on which [parseLiteral] panics is the lone double quote. *)
Lemma parseLiteral_Panics (s : gostring) :
  parseLiteral ParseFloat s = Panics <-> s = [dquote].
Proof.
  split; [|by intros ->].
  unfold parseLiteral.
  destruct (HasPrefix s [dquote] && HasSuffix s [dquote]) eqn:E1.
  { apply andb_true_iff in E1 as [H1 H2].
    destruct (ends_shape _ _ _ H1 H2) as [[-> _]|[m ->]]; [done|].
    by rewrite slice_mid. }
  destruct (streq s (str "true")); [done|].
  destruct (streq s (str "false")); [done|].
  destruct (HasPrefix s (str "[") && HasSuffix s (str "]")) eqn:E2.
  { apply andb_true_iff in E2 as [H1 H2].
    destruct (ends_shape _ _ _ H1 H2) as [[_ ?]|[m ->]]; [done|].
    rewrite slice_mid. simpl. by destruct (streq _ _). }
  destruct (Atoi _); [done|]. by destruct (ParseFloat _).
Qed.

(** A string value only comes from a quoted token. *)
Lemma parseLiteral_string_inv (s t : gostring) (e : error) :
  parseLiteral ParseFloat s = Returns (AString t, e) -> s = quoted t.
Proof.
  unfold parseLiteral.
  destruct (HasPrefix s [dquote] && HasSuffix s [dquote]) eqn:E1.
  { apply andb_true_iff in E1 as [H1 H2].
    destruct (ends_shape _ _ _ H1 H2) as [[-> _]|[m ->]]; [done|].
    rewrite slice_mid. simpl. by intros [= <- <-]. }
  destruct (streq s (str "true")); [done|].
  destruct (streq s (str "false")); [done|].
  destruct (HasPrefix s (str "[") && HasSuffix s (str "]")) eqn:E2.
  { apply andb_true_iff in E2 as [H1 H2].
    destruct (ends_shape _ _ _ H1 H2) as [[_ ?]|[m ->]]; [done|].
    rewrite slice_mid. simpl. destruct (streq _ _); [done|].
    intros [= H]. apply parseInts_shape in H as [(l & ? & _)|[? _]]; done. }
  destruct (Atoi _); [done|]. by destruct (ParseFloat _).
Qed.

(** A token whose trimmed text [Atoi] reads is an integer. *)
Lemma parseLiteral_int (s : gostring) (i : Z) :
  Atoi (TrimSpace s) = Some i -> parseLiteral ParseFloat s = Returns (AInt i, None).
Proof.
  intros Hi. unfold parseLiteral.
  destruct (HasPrefix s [dquote] && HasSuffix s [dquote]) eqn:E1.
  { exfalso. apply andb_true_iff in E1 as [H1 _].
    apply HasPrefix_prefix in H1 as [r ->].
    destruct (TrimSpace_head dquote r eq_refl) as [r' Hr]. simpl in Hi.
    by rewrite Hr in Hi. }
  destruct (streq s (str "true")) eqn:E2.
  { apply streq_true in E2 as ->. by vm_compute in Hi. }
  destruct (streq s (str "false")) eqn:E3.
  { apply streq_true in E3 as ->. by vm_compute in Hi. }
  destruct (HasPrefix s (str "[") && HasSuffix s (str "]")) eqn:E4.
  { exfalso. apply andb_true_iff in E4 as [H1 _].
    apply HasPrefix_prefix in H1 as [r ->].
    destruct (TrimSpace_head "[" r eq_refl) as [r' Hr]. simpl in Hi.
    by rewrite Hr in Hi. }
  by rewrite Hi.
Qed.

(** The errors of [parseLiteral] and the text they quote. *)
Lemma parseLiteral_error (s : gostring) (v : any float64) (e : gostring) :
  parseLiteral ParseFloat s = Returns (v, Some e) ->
  v = ANil /\
  (e = str "unsupported literal: " ++ s
   \/ exists p, Contains s p = true /\ Atoi (TrimSpace p) = None
                /\ e = str "invalid int in array: " ++ p).
Proof.
  unfold parseLiteral.
  destruct (HasPrefix s [dquote] && HasSuffix s [dquote]) eqn:E1.
  { apply andb_true_iff in E1 as [H1 H2].
    destruct (ends_shape _ _ _ H1 H2) as [[-> _]|[m ->]]; [done|].
    by rewrite slice_mid. }
  destruct (streq s (str "true")); [done|].
  destruct (streq s (str "false")); [done|].
  destruct (HasPrefix s (str "[") && HasSuffix s (str "]")) eqn:E2.
  { apply andb_true_iff in E2 as [H1 H2].
    destruct (ends_shape _ _ _ H1 H2) as [[_ ?]|[m ->]]; [done|].
    rewrite slice_mid. simpl. destruct (streq _ _); [done|].
    intros [= H]. apply parseInts_shape in H as [(l & _ & ?)|[-> (p & Hin & Hp & [= ->])]]; [done|].
    split; [done|]. right. exists p. split; [|done].
    apply genSplit_substring in Hin.
    eapply Contains_trans; [|exact Hin].
    eapply Contains_trans; [|apply Contains_TrimSpace].
    apply (Contains_app ["["%char] m ["]"%char]). }
  destruct (Atoi _); [done|]. destruct (ParseFloat _); [done|].
  intros [= <- <-]. auto.
Qed.

(** ** [parseDoCall] *)

Lemma parseDoCall_body (body : gostring) :
  parseDoCall ParseFloat (str "do(" ++ body ++ str ")")
  = if streq (TrimSpace body) []
    then Returns (Some {[ str "_metadata" := AString (str "do") ]}, None)
    else parseArgs ParseFloat (Split body (str ", "))
           {[ str "_metadata" := AString (str "do") ]}.
Proof.
  unfold parseDoCall.
  rewrite HasPrefix_app.
  assert (HasSuffix (str "do(" ++ body ++ str ")") (str ")") = true) as ->
    by (rewrite app_assoc; apply HasSuffix_app).
  simpl orb. cbv iota.
  unfold TrimPrefix. rewrite HasPrefix_app.
  change (drop (length (str "do(")) (str "do(" ++ body ++ str ")")) with (body ++ str ")").
  unfold TrimSuffix. rewrite HasSuffix_app.
  rewrite length_app. simpl length.
  replace (length body + 1 - 1)%nat with (length body) by lia.
  by rewrite take_app_length.
Qed.

Lemma ParseAction_do (raw body : gostring) :
  TrimSpace raw = str "do(" ++ body ++ str ")" ->
  ParseAction ParseFloat raw
  = r ← parseDoCall ParseFloat (str "do(" ++ body ++ str ")");
    match r with
    | (_, Some err) => Returns (None, Some (str "failed to parse do() action: " ++ err))
    | (action, None) => Returns (action, None)
    end.
Proof. intros H. unfold ParseAction. rewrite H. by rewrite HasPrefix_app. Qed.

(** What the loop over the argument tokens can return. *)
Lemma parseArgs_returns (parts : list gostring)
    (action : gmap gostring (any float64)) (r : option (gmap gostring (any float64)) * error) :
  parseArgs ParseFloat parts action = Returns r ->
  (exists a, r = (Some a, None))
  \/ exists msg part off,
       r = (None, Some msg) /\ In part parts /\ offending ParseFloat part off
       /\ Contains part off = true /\ Contains msg off = true.
Proof.
  revert action r; induction parts as [|part parts IH]; intros action r; simpl.
  - intros [= <-]. left. eauto.
  - unfold SplitN2. destruct (Cut part (str "=")) as [[k v]|] eqn:E.
    + destruct (parseLiteral ParseFloat (TrimSpace v)) as [[val [e|]]|] eqn:EL; simpl.
      * intros [= <-]. right.
        pose proof (Hk := Cut_Some _ _ _ _ E). destruct Hk as [Hpart _].
        assert (Contains part (TrimSpace v) = true) as Hv.
        { eapply Contains_trans; [|apply Contains_TrimSpace].
          rewrite Hpart, app_assoc. apply Contains_self_suffix. }
        destruct (parseLiteral_error _ _ _ EL) as [-> [->|(p & Hp & Hatoi & ->)]].
        -- exists (str "invalid value for " ++ TrimSpace k ++ str ": "
                     ++ str "unsupported literal: " ++ TrimSpace v),
             part, (TrimSpace v).
           split; [done|]. split; [by left|]. split.
           { right. exists k, v. split; [done|]. left. by split. }
           split; [done|]. rewrite !app_assoc. apply Contains_self_suffix.
        -- exists (str "invalid value for " ++ TrimSpace k ++ str ": "
                     ++ str "invalid int in array: " ++ p), part, p.
           split; [done|]. split; [by left|]. split.
           { right. exists k, v. split; [done|]. right. by split. }
           split; [by eapply Contains_trans|].
           rewrite !app_assoc. apply Contains_self_suffix.
      * intros H. apply IH in H as [H|(msg & part' & off & ? & ? & ?)]; [by left|].
        right. exists msg, part', off. split; [done|]. split; [by right | done].
      * done.
    + intros [= <-]. right. exists (str "invalid argument: " ++ part), part, part.
      split; [done|]. split; [by left|]. split.
      { left. split; [by apply Cut_None | done]. }
      split; [apply Contains_refl | apply Contains_self_suffix].
Qed.

(** A token that is not accepted makes the whole loop fail. *)
Lemma parseArgs_bad (parts : list gostring) (action : gmap gostring (any float64))
    (part : gostring) :
  In part parts -> badToken ParseFloat part ->
  forall a e, parseArgs ParseFloat parts action <> Returns (Some a, e).
Proof.
  revert action; induction parts as [|p parts IH]; intros action; [done|].
  intros Hin Hbad a e. simpl. unfold SplitN2.
  destruct (Cut p (str "=")) as [[k v]|] eqn:E; [|done].
  destruct (parseLiteral ParseFloat (TrimSpace v)) as [[val [err|]]|] eqn:EL; simpl; [done| |done].
  destruct Hin as [->|Hin]; [|by apply IH].
  destruct Hbad as [Hno|(k' & v' & x & e' & Hcut & Hlit)].
  - apply Cut_None in Hno. congruence.
  - rewrite E in Hcut. injection Hcut as <- <-. congruence.
Qed.

End ParseProps.

(** ** [ParseAction]: the claims on the [do(...)] form and the literals *)

Section ParseClaims.

Context {float64 : Type} (ParseFloat : gostring -> option float64).

Lemma ParseAction_do_success (raw body : gostring)
    (a : gmap gostring (any float64)) (e : error) :
  TrimSpace raw = str "do(" ++ body ++ str ")" ->
  ParseAction ParseFloat raw = Returns (Some a, e) ->
  e = None /\
  parseDoCall ParseFloat (str "do(" ++ body ++ str ")") = Returns (Some a, None).
Proof.
  intros Hraw. rewrite (ParseAction_do ParseFloat raw body Hraw).
  destruct (parseDoCall _ _) as [[oa [err|]]|]; [done| |done].
  rewrite bind_Returns. by intros [= -> <-].
Qed.

(** The loop over the argument tokens panics only on a value token that
    is the lone double quote. *)
Lemma parseArgs_Panics (parts : list gostring) (action : gmap gostring (any float64)) :
  parseArgs ParseFloat parts action = Panics ->
  exists part k v,
    In part parts /\ Cut part (str "=") = Some (k, v) /\ TrimSpace v = [dquote].
Proof.
  revert action; induction parts as [|part parts IH]; intros action; [done|].
  cbn [parseArgs]. unfold SplitN2.
  destruct (Cut part (str "=")) as [[k v]|] eqn:E; [|done].
  destruct (parseLiteral ParseFloat (TrimSpace v)) as [[val [err|]]|] eqn:EL.
  - done.
  - rewrite bind_Returns. intros H. destruct (IH _ H) as (p & k' & v' & Hin & H').
    exists p, k', v'. split; [by right | done].
  - intros _. apply parseLiteral_Panics in EL. exists part, k, v.
    split; [by left | done].
Qed.

(** C1. The parsing core does crash on a deviation from the convention:
    on the one-character token made of a double quote, [parseLiteral] takes
    the slice [s[1:0]] and panics, and so does [ParseAction] on a [do(...)]
    expression with that value token. It is the only token on which
    [parseLiteral] fails to return, and the only way for [ParseAction] to
    fail to return. *)
Theorem parseLiteral_lone_quote_panics :
  parseLiteral ParseFloat [dquote] = Panics
  /\ ParseAction ParseFloat (str "do(x=" ++ [dquote] ++ str ")") = Panics
  /\ (forall s, parseLiteral ParseFloat s = Panics <-> s = [dquote])
  /\ (forall raw,
        ParseAction ParseFloat raw = Panics ->
        HasPrefix (TrimSpace raw) (str "do(") = true
        /\ exists part k v,
             In part (Split (doBody (TrimSpace raw)) (str ", "))
             /\ Cut part (str "=") = Some (k, v) /\ TrimSpace v = [dquote]).
Proof.
  split; [reflexivity|]. split; [by vm_compute|].
  split; [apply parseLiteral_Panics|].
  intros raw. unfold ParseAction.
  destruct (HasPrefix (TrimSpace raw) (str "do(")) eqn:Ep.
  - intros H. split; [done|].
    destruct (parseDoCall ParseFloat (TrimSpace raw)) as [[oa [err|]]|] eqn:Ed;
      [done | done |]. clear H.
    unfold parseDoCall in Ed. destruct (_ || _); [done|].
    destruct (streq _ []); [done|]. by apply parseArgs_Panics in Ed.
  - destruct (HasPrefix (TrimSpace raw) (str "finish")); [|done].
    by destruct (parseFinishMessage (TrimSpace raw)) as [msg [err|]].
Qed.

(** C6. The order of the literal grammar. The token made of one double
    quote begins and ends with a double quote and yields no value: the
    parser panics. Every other quoted token yields the text between its
    quotes, byte for byte; [true] and [false] yield the booleans; a token
    that [Atoi] reads yields that integer; an unquoted token that is neither
    a boolean nor bracketed and that [Atoi] rejects and [ParseFloat] reads
    yields that float; and a string value only ever comes from a quoted
    token. *)
Theorem parseLiteral_grammar_order :
  parseLiteral ParseFloat [dquote] = Panics
  /\ (forall t, parseLiteral ParseFloat (quoted t) = Returns (AString t, None))
  /\ parseLiteral ParseFloat (str "true") = Returns (ABool true, None)
  /\ parseLiteral ParseFloat (str "false") = Returns (ABool false, None)
  /\ (forall s i, Atoi (TrimSpace s) = Some i ->
        parseLiteral ParseFloat s = Returns (AInt i, None))
  /\ (forall s f,
        HasPrefix s [dquote] && HasSuffix s [dquote] = false ->
        s <> str "true" -> s <> str "false" ->
        HasPrefix s (str "[") && HasSuffix s (str "]") = false ->
        Atoi (TrimSpace s) = None -> ParseFloat (TrimSpace s) = Some f ->
        parseLiteral ParseFloat s = Returns (AFloat f, None))
  /\ (forall s t e, parseLiteral ParseFloat s = Returns (AString t, e) -> s = quoted t).
Proof.
  split; [reflexivity|]. split; [apply parseLiteral_quoted|].
  split; [reflexivity|]. split; [reflexivity|].
  split; [apply parseLiteral_int|]. split; [|apply parseLiteral_string_inv].
  intros s f H1 H2 H3 H4 H5 H6. unfold parseLiteral.
  rewrite H1, H4, H5, H6.
  apply streq_false in H2, H3. by rewrite H2, H3.
Qed.

(** C2 (as the code has it). An action text that, once trimmed, starts
    with neither [do(] nor [finish] is not parsed at all: [ParseAction]
    returns no Action and the error that quotes the trimmed text, whether or
    not the text contains the tag [<answer>]. *)
Theorem ParseAction_unknown_form (raw : gostring) :
  HasPrefix (TrimSpace raw) (str "do(") = false ->
  HasPrefix (TrimSpace raw) (str "finish") = false ->
  ParseAction ParseFloat raw
  = Returns (None, Some (str "failed to parse action: " ++ TrimSpace raw)).
Proof. intros H1 H2. unfold ParseAction. by rewrite H1, H2. Qed.

(** C7 (as the code has it). A token without [=] is rejected with the
    error [invalid argument], and no parse with such a token succeeds. A
    token with an [=] is cut at its first [=]: all that follows, further [=]
    included, is the value token, and the token is accepted exactly when the
    literal parser accepts that value token. *)
Theorem parseDoCall_token_split :
  (forall part parts action,
      Contains part (str "=") = false ->
      parseArgs ParseFloat (part :: parts) action
      = Returns (None, Some (str "invalid argument: " ++ part)))
  /\ (forall k v parts action,
      Contains k (str "=") = false ->
      parseArgs ParseFloat ((k ++ str "=" ++ v) :: parts) action
      = r ← parseLiteral ParseFloat (TrimSpace v);
        match r with
        | (_, Some err) =>
            Returns (None, Some (str "invalid value for " ++ TrimSpace k ++ str ": " ++ err))
        | (val, None) => parseArgs ParseFloat parts (<[TrimSpace k := val]> action)
        end)
  /\ (forall raw body part,
      TrimSpace raw = str "do(" ++ body ++ str ")" ->
      streq (TrimSpace body) [] = false ->
      In part (Split body (str ", ")) ->
      Contains part (str "=") = false ->
      forall a e, ParseAction ParseFloat raw <> Returns (Some a, e)).
Proof.
  split; [|split].
  - intros part parts action H. cbn [parseArgs]. unfold SplitN2.
    by rewrite (proj2 (Cut_None _ _) H).
  - intros k v parts action H. cbn [parseArgs]. unfold SplitN2.
    by rewrite (Cut_byte k v "=" H : Cut (k ++ str "=" ++ v) (str "=") = _).
  - intros raw body part Hraw Hbody Hin Hno a e HA.
    apply (ParseAction_do_success _ _ _ _ Hraw) in HA as [_ HA].
    rewrite parseDoCall_body, Hbody in HA.
    revert HA. apply parseArgs_bad with (part := part); [done | by left].
Qed.

(** C8. A malformed token does not always yield an error: when the value
    token of an earlier argument is the lone double quote, [ParseAction]
    panics before it reaches the malformed token. Apart from that, the
    parse of a [do(...)] expression fails as a whole: a token that is not
    accepted rules out every successful result, and whatever [ParseAction]
    returns is either an Action without error, or no Action and an error
    whose text contains the offending part of a token. *)
Theorem ParseAction_do_atomic :
  ParseAction ParseFloat (str "do(x=" ++ [dquote] ++ str ", y)") = Panics
  /\ forall raw body,
      TrimSpace raw = str "do(" ++ body ++ str ")" ->
      (forall part,
          streq (TrimSpace body) [] = false ->
          In part (Split body (str ", ")) -> badToken ParseFloat part ->
          forall a e, ParseAction ParseFloat raw <> Returns (Some a, e))
      /\ (forall r,
          ParseAction ParseFloat raw = Returns r ->
          (exists a, r = (Some a, None))
          \/ exists msg part off,
               r = (None, Some msg) /\ In part (Split body (str ", "))
               /\ offending ParseFloat part off
               /\ Contains part off = true /\ Contains msg off = true).
Proof.
  split; [by vm_compute|]. intros raw body Hraw. split.
  - intros part Hbody Hin Hbad a e HA.
    apply (ParseAction_do_success _ _ _ _ Hraw) in HA as [_ HA].
    rewrite parseDoCall_body, Hbody in HA.
    revert HA. by apply parseArgs_bad with (part := part).
  - intros r. rewrite (ParseAction_do ParseFloat raw body Hraw), parseDoCall_body.
    destruct (streq (TrimSpace body) []).
    { rewrite bind_Returns. intros [= <-]. left. eauto. }
    destruct (parseArgs _ _ _) as [[oa oe]|] eqn:E; [|done].
    rewrite bind_Returns.
    apply parseArgs_returns in E as [[a [= -> ->]]|(msg & part & off & [= -> ->] & H)].
    + intros [= <-]. left. eauto.
    + intros [= <-]. right.
      exists (str "failed to parse do() action: " ++ msg), part, off.
      split; [done|]. destruct H as (? & ? & ? & ?). repeat split; try done.
      eapply Contains_trans; [apply Contains_self_suffix | done].
Qed.

End ParseClaims.

(** An input with the legacy tag: it is rejected like any other unknown
    form. *)
Lemma ParseAction_unknown_form_witness :
  ParseAction sampleParseFloat (str "<answer>do()</answer>")
  = Returns (None, Some (str "failed to parse action: <answer>do()</answer>")).
Proof.
  apply (ParseAction_unknown_form sampleParseFloat (str "<answer>do()</answer>"));
    reflexivity.
Defined.

(** C2 does not hold as stated: an action text with the tag [<answer>]
    is not parsed. *)
Lemma ParseAction_answer_tag_not_parsed :
  ~ (forall (float64 : Type) (ParseFloat : gostring -> option float64) (raw : gostring),
        HasPrefix (TrimSpace raw) (str "do(") = false ->
        HasPrefix (TrimSpace raw) (str "finish(") = false ->
        Contains raw (str "<answer>") = true ->
        exists a, ParseAction ParseFloat raw = Returns (Some a, None)).
Proof.
  intros H.
  destruct (H _ sampleParseFloat (str "<answer>do()</answer>")
              eq_refl eq_refl eq_refl) as [a Ha].
  vm_compute in Ha. discriminate Ha.
Qed.

(** The token [a=Qb=cQ] (Q the double quote) has two [=] and is accepted;
    the token [y] is rejected. *)
Lemma parseDoCall_token_split_witness :
  parseArgs sampleParseFloat [str "a=" ++ quoted (str "b=c")] ∅
  = Returns (Some {[ str "a" := AString (str "b=c") ]}, None)
  /\ parseArgs sampleParseFloat [str "y"] ∅
     = Returns (None, Some (str "invalid argument: y")).
Proof.
  destruct (parseDoCall_token_split sampleParseFloat) as (H1 & H2 & _). split.
  - rewrite (H2 (str "a") (quoted (str "b=c")) [] ∅ eq_refl). reflexivity.
  - rewrite (H1 (str "y") [] ∅ eq_refl). reflexivity.
Defined.

(** C7 does not hold as stated: a token with more than one [=] is
    accepted when the text after its first [=] is a literal. *)
Lemma token_with_two_equals_accepted :
  ~ (forall (float64 : Type) (ParseFloat : gostring -> option float64)
            (raw body part : gostring),
        TrimSpace raw = str "do(" ++ body ++ str ")" ->
        In part (Split body (str ", ")) ->
        countByte "=" part <> 1%nat ->
        forall a, ParseAction ParseFloat raw <> Returns (Some a, None)).
Proof.
  intros H.
  apply (H _ sampleParseFloat
           (str "do(a=" ++ quoted (str "b=c") ++ str ")")
           (str "a=" ++ quoted (str "b=c"))
           (str "a=" ++ quoted (str "b=c"))
           eq_refl (or_introl eq_refl)
           ltac:(vm_compute; discriminate)
           {[ str "_metadata" := AString (str "do"); str "a" := AString (str "b=c") ]}).
  vm_compute. reflexivity.
Qed.

(** ** [messageRe] and the [finish] form *)

Import GoRegexp.

(** [matchGroup] finds a closing quote whenever there is a double quote,
    and what it captures is a text of the group. *)
Lemma matchGroup_spec (n : nat) (s : gostring) :
  (length s <= n)%nat ->
  match matchGroup s with
  | Some g => groupText g /\ exists b, s = g ++ dquote :: b
  | None => ~ In dquote s
  end.
Proof.
  revert s; induction n as [|n IH]; intros s Hn.
  { destruct s; [|simpl in Hn; lia]. simpl. tauto. }
  destruct s as [|c s']; [simpl; tauto|].
  simpl in Hn. cbn [matchGroup].
  destruct (Ascii.eqb c dquote) eqn:Ec.
  { apply Ascii.eqb_eq in Ec as ->. split; [constructor | by exists s']. }
  apply Ascii.eqb_neq in Ec.
  assert (match (c ::.) <$> matchGroup s' with
          | Some g => groupText g /\ exists b, c :: s' = g ++ dquote :: b
          | None => ~ In dquote (c :: s')
          end) as Hfallback.
  { specialize (IH s' ltac:(lia)). destruct (matchGroup s') as [g|]; simpl.
    - destruct IH as [Hg [b ->]]. split; [by constructor | by exists b].
    - intros [?|?]; [congruence | done]. }
  destruct (Ascii.eqb c backslash) eqn:Eb; [|done].
  apply Ascii.eqb_eq in Eb as ->.
  destruct s' as [|d s'']; [done|].
  destruct (Ascii.eqb d newline) eqn:En; [done|].
  apply Ascii.eqb_neq in En. simpl in Hn.
  specialize (IH s'' ltac:(lia)).
  destruct (matchGroup s'') as [g|]; [|done].
  destruct IH as [Hg [b ->]]. split; [by constructor | by exists b].
Qed.

Lemma matchGroup_Some (s g : gostring) :
  matchGroup s = Some g -> groupText g /\ exists b, s = g ++ dquote :: b.
Proof.
  intros H. pose proof (matchGroup_spec (length s) s (le_n _)) as Hs.
  by rewrite H in Hs.
Qed.

Lemma matchGroup_None (s : gostring) : matchGroup s = None -> ~ In dquote s.
Proof.
  intros H. pose proof (matchGroup_spec (length s) s (le_n _)) as Hs.
  by rewrite H in Hs.
Qed.

Lemma HasPrefix_messageLit (s : gostring) :
  HasPrefix s messageLit = true -> s = messageLit ++ drop (length messageLit) s.
Proof. intros H. apply HasPrefix_prefix in H as [r ->]. by rewrite drop_app_length. Qed.

(** The result of [FindStringSubmatch]: no match at all, or the match that
    starts at the first occurrence of the literal start of the pattern. *)
Lemma FindStringSubmatch_spec (s : gostring) :
  match FindStringSubmatch s with
  | [] => ~ matchesMessage s
  | [whole; g] =>
      exists a b, s = a ++ messageLit ++ g ++ [dquote] ++ b
        /\ whole = messageLit ++ g ++ [dquote]
        /\ groupText g
        /\ matchGroup (g ++ [dquote] ++ b) = Some g
        /\ forall k, (k < length a)%nat -> ~ occursAt s messageLit k
  | _ => False
  end.
Proof.
  induction s as [|c s' IH].
  - cbn. intros (a & g & b & H & _). by destruct a.
  - cbn [FindStringSubmatch].
    destruct (if HasPrefix (c :: s') messageLit
              then matchGroup (drop (length messageLit) (c :: s')) else None)
      as [g|] eqn:Ehere.
    + destruct (HasPrefix (c :: s') messageLit) eqn:Ep; [|done].
      pose proof (matchGroup_Some _ _ Ehere) as [Hg [b Hb]].
      exists [], b. split.
      { pose proof (HasPrefix_messageLit _ Ep) as Hs. rewrite Hb in Hs. exact Hs. }
      split; [done|]. split; [done|]. split; [|simpl; intros; lia].
      simpl app at 2. by rewrite <- Hb.
    + assert (HasPrefix (c :: s') messageLit = true ->
              ~ In dquote (drop (length messageLit) (c :: s'))) as Hno.
      { intros Ep. rewrite Ep in Ehere. by apply matchGroup_None. }
      destruct (FindStringSubmatch s') as [|whole [|g [|? ?]]]; [|done| |done].
      * intros (a & g & b & H & Hg).
        destruct a as [|c' a].
        -- change (c :: s' = messageLit ++ (g ++ dquote :: b)) in H. apply Hno.
           ++ rewrite H. apply HasPrefix_app.
           ++ rewrite H, drop_app_length. apply in_or_app. right. by left.
        -- injection H as -> H. apply IH. by exists a, g, b.
      * destruct IH as (a & b & -> & -> & Hg & Hm & Hfirst).
        exists (c :: a), b. split; [done|]. do 3 (split; [done|]).
        intros [|k] Hk.
        -- rewrite occursAt_0. intros Ep. apply (Hno Ep).
           change (drop (length messageLit) (c :: a ++ messageLit ++ g ++ [dquote] ++ b))
             with (drop 8 (a ++ messageLit ++ g ++ [dquote] ++ b)).
           change messageLit with (str "message=" ++ [dquote]).
           rewrite <- !app_assoc, (app_assoc a).
           rewrite drop_app_le by (rewrite length_app; simpl; lia).
           apply in_or_app. right. by left.
        -- rewrite occursAt_S. apply Hfirst. simpl in Hk. lia.
Qed.

Section FinishClaim.

Context {float64 : Type} (ParseFloat : gostring -> option float64).

(** C10. For an input whose trimmed text starts with [finish],
    [ParseAction] succeeds exactly when the pattern of [messageRe] matches
    somewhere in the trimmed text, and reports [message not found]
    otherwise; nothing else of the text is looked at. On success the Action
    has the two keys [_metadata], bound to [finish], and [message], bound to
    the text captured by the match that starts at the first occurrence of
    the pattern's literal start. *)
Theorem ParseAction_finish (raw : gostring) :
  HasPrefix (TrimSpace raw) (str "finish") = true ->
  (matchesMessage (TrimSpace raw)
   <-> exists a, ParseAction ParseFloat raw = Returns (Some a, None))
  /\ (~ matchesMessage (TrimSpace raw) ->
      ParseAction ParseFloat raw = Returns (None, Some (str "message not found")))
  /\ (forall a e,
      ParseAction ParseFloat raw = Returns (Some a, e) ->
      e = None /\
      exists pre g post,
        TrimSpace raw = pre ++ messageLit ++ g ++ [dquote] ++ post
        /\ groupText g
        /\ matchGroup (g ++ [dquote] ++ post) = Some g
        /\ (forall k, (k < length pre)%nat -> ~ occursAt (TrimSpace raw) messageLit k)
        /\ a = {[ str "_metadata" := AString (str "finish");
                  str "message" := AString g ]}).
Proof.
  intros Hfin. unfold ParseAction.
  assert (HasPrefix (TrimSpace raw) (str "do(") = false) as ->.
  { apply HasPrefix_prefix in Hfin as [r ->]. reflexivity. }
  rewrite Hfin. unfold parseFinishMessage.
  pose proof (FindStringSubmatch_spec (TrimSpace raw)) as Hspec.
  destruct (FindStringSubmatch (TrimSpace raw)) as [|whole [|g [|? ?]]]; [|done| |done].
  - split; [|split].
    + split; [done|]. by intros [a Ha].
    + done.
    + intros a e Ha. done.
  - destruct Hspec as (pre & post & Hraw & _ & Hg & Hm & Hfirst).
    split; [|split].
    + split; [eauto|]. intros _. by exists pre, g, post.
    + intros Hno. exfalso. apply Hno. by exists pre, g, post.
    + intros a e [= <- <-]. split; [done|]. by exists pre, g, post.
Qed.

End FinishClaim.

(** A text that only starts with [finish]: no parenthesis, text around the
    message, an escaped quote inside it. *)
Lemma ParseAction_finish_witness :
  HasPrefix (TrimSpace finishSample) (str "finish") = true
  /\ ParseAction sampleParseFloat finishSample
     = Returns (Some {[ str "_metadata" := AString (str "finish");
                        str "message" := AString (str "a" ++ [backslash; dquote] ++ str "b") ]},
                None).
Proof.
  split; [reflexivity|].
  destruct (ParseAction_finish sampleParseFloat finishSample eq_refl) as ([H _] & _ & _).
  destruct H as [a Ha].
  - exists (str "finished: "), (str "a" ++ [backslash; dquote] ++ str "b"), (str " and more").
    split; [reflexivity|].
    apply groupText_char; [discriminate|].
    apply groupText_escape; [discriminate|].
    apply groupText_char; [discriminate|]. apply groupText_nil.
  - reflexivity.
Defined.

(** ** The live segmenter *)

Lemma occursAt_lookup (s m : gostring) (a : nat) :
  occursAt s m a <->
  (a + length m <= length s)%nat /\
  forall j, (j < length m)%nat -> s !! (a + j)%nat = m !! j.
Proof.
  split.
  - intros (x & y & -> & <-). split.
    + rewrite !length_app. lia.
    + intros j Hj. rewrite lookup_app_r by lia.
      replace (length x + j - length x)%nat with j by lia.
      by rewrite lookup_app_l.
  - intros [Hlen Hj]. exists (take a s), (drop (a + length m) s). split.
    + rewrite <- (take_drop a s) at 1. f_equal.
      rewrite <- (take_drop (length m) (drop a s)) at 1.
      rewrite drop_drop. f_equal.
      apply list_eq_same_length with (length m); [done| |].
      * rewrite length_take, length_drop. lia.
      * intros i x y Hi Hx Hy. rewrite lookup_take_lt, lookup_drop, Hj in Hx by done.
        congruence.
    + rewrite length_take. lia.
Qed.

Lemma occursAt_app_l (x y m : gostring) (a : nat) :
  occursAt x m a -> occursAt (x ++ y) m a.
Proof.
  intros (u & v & -> & <-). exists u, (v ++ y). split; [|done].
  by rewrite <- !app_assoc.
Qed.

Lemma occursAt_inv_l (x y m : gostring) (a : nat) :
  occursAt (x ++ y) m a -> (a + length m <= length x)%nat -> occursAt x m a.
Proof.
  rewrite !occursAt_lookup. intros [_ H] Hlen. split; [done|].
  intros j Hj. rewrite <- H by done. by rewrite lookup_app_l by lia.
Qed.

Lemma occursAt_inv_r (x y m : gostring) (a : nat) :
  occursAt (x ++ y) m a -> (length x <= a)%nat -> occursAt y m (a - length x).
Proof.
  rewrite !occursAt_lookup, length_app. intros [Hl H] Hlen. split; [lia|].
  intros j Hj. rewrite <- H by done. rewrite lookup_app_r by lia.
  f_equal. lia.
Qed.

(** An occurrence that starts inside [b] and ends after it leaves a proper
    prefix of the marker at the end of [b]. *)
Lemma occursAt_straddle (x b y m : gostring) (a : nat) :
  occursAt (x ++ b ++ y) m a ->
  (length x <= a)%nat ->
  (a < length x + length b < a + length m)%nat ->
  HasSuffix b (take (length x + length b - a) m) = true.
Proof.
  rewrite occursAt_lookup. intros [_ H] Hx Hb.
  apply HasSuffix_suffix.
  exists (take (a - length x) b).
  rewrite <- (take_drop (a - length x) b) at 1. f_equal.
  apply list_eq_same_length with (length x + length b - a)%nat.
  - rewrite length_take. lia.
  - rewrite length_drop. lia.
  - intros i c d Hi Hc Hd.
    rewrite lookup_drop in Hc. rewrite lookup_take_lt in Hd by done.
    rewrite <- H in Hd by lia.
    rewrite lookup_app_r, lookup_app_l in Hd by lia.
    replace (a + i - length x)%nat with (a - length x + i)%nat in Hd by lia.
    congruence.
Qed.

Lemma markersApart_spec (m m1 : gostring) (j : nat) :
  In m actionMarkers -> In m1 actionMarkers ->
  (0 < j < length m)%nat -> m !! j <> m1 !! 0%nat.
Proof.
  intros Hm Hm1 Hj.
  assert (markersApart = true) as H by by vm_compute.
  unfold markersApart in H. rewrite forallb_forall in H.
  specialize (H m Hm). rewrite forallb_forall in H.
  specialize (H m1 Hm1). rewrite forallb_forall in H.
  specialize (H j). rewrite negb_true_iff, bool_decide_eq_false in H.
  apply H. apply in_seq. lia.
Qed.

Lemma marker_nonempty (m : gostring) : In m actionMarkers -> (0 < length m)%nat.
Proof. intros [<-|[<-|[]]]; simpl; lia. Qed.

Lemma foundMarker_Some (buf m : gostring) :
  foundMarker buf = Some m -> In m actionMarkers /\ Contains buf m = true.
Proof. apply find_some. Qed.

Lemma foundMarker_None (buf m : gostring) :
  foundMarker buf = None -> In m actionMarkers -> Contains buf m = false.
Proof. intros H Hin. by apply (find_none _ _ H). Qed.

Lemma isPotentialMarker_true (buf m : gostring) (k : nat) :
  In m actionMarkers -> (0 < k < length m)%nat ->
  HasSuffix buf (take k m) = true -> isPotentialMarker buf = true.
Proof.
  intros Hm Hk Hs. unfold isPotentialMarker.
  apply existsb_exists. exists m. split; [done|].
  apply existsb_exists. exists k. split; [apply in_seq; lia | done].
Qed.

Lemma rawContent_onDelta (st : live) (delta : gostring) :
  rawContent (onDelta st delta) = rawContent st ++ delta.
Proof.
  unfold onDelta. destruct (streq delta []) eqn:E.
  - apply streq_true in E as ->. by rewrite app_nil_r.
  - destruct (inActionPhase st); [done|].
    destruct (foundMarker _); [done|]. by destruct (isPotentialMarker _).
Qed.

(** In the thinking phase no marker is complete in the text received so
    far; this is kept when the new buffer contains no marker. *)
Lemma no_marker_yet (T out buf future m : gostring) :
  T = (out ++ buf) ++ future ->
  ~ partlyPrinted T out ->
  (forall m, In m actionMarkers -> Contains out m = false) ->
  foundMarker buf = None ->
  In m actionMarkers -> Contains (out ++ buf) m = false.
Proof.
  intros HT Hpart Hout Hbuf Hm.
  destruct (Contains (out ++ buf) m) eqn:E; [|done]. exfalso.
  apply Contains_occurs in E as [a Ha].
  destruct (decide (a + length m <= length out)%nat) as [H1|H1].
  { apply occursAt_inv_l in Ha; [|done].
    assert (Contains out m = true) by (apply Contains_occurs; eauto).
    rewrite Hout in *; done. }
  destruct (decide (length out <= a)%nat) as [H2|H2].
  { apply occursAt_inv_r in Ha; [|done].
    assert (Contains buf m = true) by (apply Contains_occurs; eauto).
    rewrite (foundMarker_None _ _ Hbuf Hm) in *; done. }
  apply Hpart. exists m, a. split; [done|]. split; [|lia].
  rewrite HT. by apply occursAt_app_l.
Qed.

(** One iteration of the receive loop keeps the invariant. *)
Lemma onDelta_inv (T : gostring) (st : live) (delta : gostring) :
  liveInv T st ->
  (exists future, T = rawContent st ++ delta ++ future) ->
  liveInv T (onDelta st delta).
Proof.
  intros (_ & Hpart & Hphase) [future HT].
  unfold onDelta. destruct (streq delta []) eqn:Ed.
  { apply streq_true in Ed as ->. split; [by exists future|]. by split. }
  destruct (inActionPhase st) eqn:Eph.
  { (* action phase: nothing is printed any more *)
    destruct Hphase as (m & rest & Hm & Hraw).
    split; [exists future; simpl; by rewrite <- app_assoc|].
    split; [done|]. simpl. exists m, (rest ++ delta). split; [done|].
    rewrite Hraw. by rewrite <- !app_assoc. }
  destruct Hphase as [Hraw Hnone].
  assert (forall m, In m actionMarkers -> Contains (stdout st) m = false) as Hout.
  { intros m Hm. destruct (Contains (stdout st) m) eqn:E; [|done].
    rewrite <- (Hnone m Hm). symmetry. eapply Contains_trans; [|exact E].
    rewrite Hraw, <- (app_nil_l (stdout st ++ _)). apply (Contains_app [] (stdout st)). }
  assert (T = (stdout st ++ thinkingBuf st ++ delta) ++ future) as HT'.
  { rewrite HT, Hraw. by rewrite <- !app_assoc. }
  destruct (foundMarker (thinkingBuf st ++ delta)) as [m1|] eqn:Ef.
  - (* a marker is complete: print what precedes it *)
    apply foundMarker_Some in Ef as [Hm1 Hc].
    unfold SplitN2.
    destruct (Cut (thinkingBuf st ++ delta) m1) as [[before after]|] eqn:Ecut;
      [|apply Cut_None in Ecut; congruence].
    apply Cut_Some in Ecut as [Hbuf _]. simpl hd.
    split; [exists future; simpl; by rewrite <- app_assoc|].
    split; simpl.
    + intros (m & a & Hm & Hocc & Ha).
      rewrite length_app in Ha.
      apply occursAt_lookup in Hocc as [_ Hocc].
      specialize (Hocc (length (stdout st) + length before - a)%nat ltac:(lia)).
      replace (a + (length (stdout st) + length before - a))%nat
        with (length (stdout st ++ before) + 0)%nat in Hocc
        by (rewrite length_app; lia).
      rewrite HT', Hbuf in Hocc.
      replace ((stdout st ++ before ++ m1 ++ after) ++ future)
        with ((stdout st ++ before) ++ m1 ++ after ++ future) in Hocc
        by (by rewrite <- !app_assoc).
      rewrite lookup_app_r, lookup_app_l in Hocc
        by (pose proof (marker_nonempty _ Hm1); lia).
      replace (length (stdout st ++ before) + 0 - length (stdout st ++ before))%nat
        with 0%nat in Hocc by lia.
      symmetry in Hocc. revert Hocc. apply markersApart_spec; [done | done | lia].
    + exists m1, after. split; [done|].
      rewrite Hraw, <- !app_assoc. f_equal. by rewrite app_assoc, Hbuf, <- !app_assoc.
  - assert (forall m, In m actionMarkers ->
              Contains (stdout st ++ thinkingBuf st ++ delta) m = false) as Hnone'.
    { intros m Hm. by apply (no_marker_yet T _ _ future). }
    destruct (isPotentialMarker (thinkingBuf st ++ delta)) eqn:Epot.
    + (* the buffer may end with the start of a marker: wait *)
      split; [exists future; simpl; by rewrite <- app_assoc|].
      split; [done|]. simpl. split; [by rewrite Hraw, <- app_assoc|].
      intros m Hm. rewrite Hraw, <- app_assoc. by apply Hnone'.
    + (* safe to print the buffer *)
      split; [exists future; simpl; by rewrite <- app_assoc|].
      split; simpl.
      * intros (m & a & Hm & Hocc & Ha).
        rewrite !length_app in Ha.
        assert (length (stdout st) <= a)%nat as Hle.
        { destruct (decide (length (stdout st) <= a)%nat); [done|].
          exfalso. apply Hpart. exists m, a. split; [done|]. split; [done|]. lia. }
        rewrite HT', <- !app_assoc in Hocc.
        rewrite (app_assoc (thinkingBuf st)) in Hocc.
        apply occursAt_straddle in Hocc; [|done|rewrite length_app; lia].
        assert (isPotentialMarker (thinkingBuf st ++ delta) = true) as Hpot.
        { eapply isPotentialMarker_true; [exact Hm| |exact Hocc].
          rewrite length_app. lia. }
        congruence.
      * split; [by rewrite Hraw, app_nil_r, <- app_assoc|].
        intros m Hm. rewrite Hraw, <- app_assoc. by apply Hnone'.
Qed.

Lemma recvLoop_cons (st : live) (delta : gostring) (chunks : list gostring) :
  recvLoop st (chunked (delta :: chunks)) = recvLoop (onDelta st delta) (chunked chunks).
Proof. reflexivity. Qed.

Lemma recvLoop_inv (T : gostring) (chunks : list gostring) (st : live) :
  liveInv T st ->
  (exists future, T = rawContent st ++ concat chunks ++ future) ->
  liveInv T (recvLoop st (chunked chunks))
  /\ rawContent (recvLoop st (chunked chunks)) = rawContent st ++ concat chunks.
Proof.
  revert st; induction chunks as [|delta chunks IH]; intros st Hinv [future HT].
  - simpl. by rewrite app_nil_r.
  - rewrite recvLoop_cons. simpl concat in *.
    destruct (IH (onDelta st delta)) as [H1 H2].
    + apply onDelta_inv; [done|]. exists (concat chunks ++ future).
      by rewrite HT, <- app_assoc.
    + exists future. by rewrite rawContent_onDelta, HT, <- !app_assoc.
    + split; [done|]. by rewrite H2, rawContent_onDelta, <- app_assoc.
Qed.

Lemma liveInv_live0 (T : gostring) : liveInv T live0.
Proof.
  split; [by exists T|]. split.
  - intros (m & a & _ & _ & Ha). simpl in Ha. lia.
  - simpl. split; [done|]. by intros m [<-|[<-|[]]].
Qed.

Lemma segment_inv (chunks : list gostring) (future : gostring) :
  liveInv (concat chunks ++ future) (segment chunks)
  /\ rawContent (segment chunks) = concat chunks.
Proof.
  apply (recvLoop_inv (concat chunks ++ future) chunks live0).
  - apply liveInv_live0.
  - by exists future.
Qed.

Lemma liveInv_stdout_prefix (T : gostring) (st : live) :
  liveInv T st -> stdout st `prefix_of` T.
Proof.
  intros ([future ->] & _ & H). destruct (inActionPhase st).
  - destruct H as (m & rest & _ & ->). exists ((m ++ rest) ++ future).
    by rewrite <- app_assoc.
  - destruct H as [-> _]. exists (thinkingBuf st ++ future). by rewrite <- app_assoc.
Qed.

(** C5. Fed the bytes of [do(action=] one at a time, the live segmenter
    has printed nothing at any point. More generally, for every stream and
    at every point of it, the text printed so far is a prefix of the stream
    and does not end inside an occurrence of a marker in the stream: no
    marker is ever printed in part, however the chunks cut it. *)
Theorem marker_never_partly_printed :
  (forall n, stdout (segment (take n (byteByByte (str "do(action=")))) = [])
  /\ (forall chunks1 chunks2 m a,
        In m actionMarkers ->
        occursAt (concat (chunks1 ++ chunks2)) m a ->
        stdout (segment chunks1) `prefix_of` concat (chunks1 ++ chunks2)
        /\ ~ (a < length (stdout (segment chunks1)) < a + length m)%nat).
Proof.
  split.
  - intros n. destruct (decide (n <= 10)%nat) as [Hn|Hn].
    + do 11 (destruct n as [|n]; [reflexivity|]). lia.
    + rewrite take_ge by (simpl; lia). reflexivity.
  - intros chunks1 chunks2 m a Hm Hocc. rewrite concat_app in *.
    destruct (segment_inv chunks1 (concat chunks2)) as [Hinv _].
    split; [by apply liveInv_stdout_prefix|].
    intros Ha. destruct Hinv as (_ & Hpart & _). apply Hpart. by exists m, a.
Qed.

(** The marker [do(action=] cut into [do(act] and [ion=], with text before
    and after: nothing of the marker is printed after the first chunk. *)
Lemma marker_never_partly_printed_witness :
  ~ (3 < length (stdout (segment [str "ok do(act"])) < 3 + 10)%nat.
Proof.
  destruct marker_never_partly_printed as [_ H].
  apply (H [str "ok do(act"] [str "ion=Tap)"] (str "do(action=") 3%nat).
  - right. by left.
  - by exists (str "ok "), (str "Tap)").
Defined.

(** ** Counting the phase changes *)

Lemma inActionPhase_onDelta (st : live) (delta : gostring) :
  inActionPhase st = true -> inActionPhase (onDelta st delta) = true.
Proof.
  intros H. unfold onDelta. destruct (streq delta []); [done|]. by rewrite H.
Qed.

Lemma inActionPhase_onResponse (st : live) (resp : response) :
  inActionPhase st = true -> inActionPhase (onResponse st resp) = true.
Proof. destruct resp; [done|]. apply inActionPhase_onDelta. Qed.

Lemma inActionPhase_recvLoop (resps : list response) (st : live) :
  inActionPhase st = true -> inActionPhase (recvLoop st resps) = true.
Proof.
  revert st; induction resps as [|r resps IH]; intros st H; [done|].
  apply IH. by apply inActionPhase_onResponse.
Qed.

(** The phase changes at most once: it never changes back. *)
Lemma phaseFlips_final (resps : list response) (st : live) :
  phaseFlips st resps
  = if inActionPhase st then 0%nat
    else if inActionPhase (recvLoop st resps) then 1%nat else 0%nat.
Proof.
  revert st; induction resps as [|r resps IH]; intros st.
  - simpl. by destruct (inActionPhase st).
  - cbn [phaseFlips]. rewrite IH. change (recvLoop st (r :: resps))
      with (recvLoop (onResponse st r) resps).
    destruct (inActionPhase st) eqn:E.
    + by rewrite (inActionPhase_onResponse st r E).
    + destruct (inActionPhase (onResponse st r)) eqn:E'; [|done].
      by rewrite (inActionPhase_recvLoop resps _ E').
Qed.

(** ** The stream [hello do(], cut in every possible way *)

Lemma compositions_cons (chunk : gostring) (rest : list gostring) :
  chunk <> [] ->
  In rest (compositions (concat rest)) ->
  In (chunk :: rest) (compositions (chunk ++ concat rest)).
Proof.
  intros Hne Hrest. induction chunk as [|c chunk IH]; [done|].
  cbn [app compositions]. apply in_flat_map.
  destruct chunk as [|d chunk].
  - exists rest. split; [done|]. destruct rest; [by left | right; by left].
  - exists ((d :: chunk) :: rest). split; [by apply IH | by left].
Qed.

(** Every stream of non-empty chunks is among the [compositions] of its
    text. *)
Lemma compositions_complete (chunks : list gostring) :
  Forall (fun d => d <> []) chunks -> In chunks (compositions (concat chunks)).
Proof.
  induction 1 as [|chunk rest Hne _ IH]; [by left|].
  simpl concat. by apply compositions_cons.
Qed.

Lemma nonempty_Forall (chunks : list gostring) :
  Forall (fun d => d <> []) (nonempty chunks).
Proof.
  apply Forall_forall. intros d Hd. apply list_elem_of_In, filter_In in Hd as [_ Hd].
  apply negb_true_iff, streq_false in Hd. done.
Qed.

Lemma concat_nonempty (chunks : list gostring) :
  concat (nonempty chunks) = concat chunks.
Proof.
  induction chunks as [|d chunks IH]; [done|]. simpl.
  destruct (streq d []) eqn:E; simpl; rewrite IH; [|done].
  by apply streq_true in E as ->.
Qed.

(** Empty chunks are skipped by the receive loop. *)
Lemma recvLoop_nonempty (chunks : list gostring) (st : live) :
  recvLoop st (chunked (nonempty chunks)) = recvLoop st (chunked chunks).
Proof.
  revert st; induction chunks as [|d chunks IH]; intros st; [done|].
  rewrite (recvLoop_cons st d chunks). unfold nonempty. cbn [List.filter].
  fold (nonempty chunks). destruct (streq d []) eqn:E; cbn [negb].
  - rewrite IH. unfold onDelta. by rewrite E.
  - by rewrite recvLoop_cons, IH.
Qed.

Lemma nonempty_app_inv (chunks m1 m2 : list gostring) :
  nonempty chunks = m1 ++ m2 ->
  exists l1 l2, chunks = l1 ++ l2 /\ nonempty l1 = m1 /\ nonempty l2 = m2.
Proof.
  revert m1; induction chunks as [|d chunks IH]; intros m1; simpl.
  - intros H. symmetry in H. apply app_eq_nil in H as [-> ->]. by exists [], [].
  - destruct (streq d []) eqn:E; simpl.
    + intros H. destruct (IH _ H) as (l1 & l2 & -> & <- & <-).
      exists (d :: l1), l2. split; [done|]. simpl. by rewrite E.
    + destruct m1 as [|d' m1]; simpl.
      * intros <-. exists [], (d :: chunks). split; [done|]. simpl. by rewrite E.
      * intros [= <- H]. destruct (IH _ H) as (l1 & l2 & -> & <- & <-).
        exists (d :: l1), l2. split; [done|]. simpl. by rewrite E.
Qed.

Lemma boundaryAt_true (n : nat) (chunks : list gostring) :
  boundaryAt n chunks = true <->
  exists l1 l2, chunks = l1 ++ l2 /\ length (concat l1) = n.
Proof.
  unfold boundaryAt. rewrite existsb_exists. split.
  - intros (k & _ & Hk). apply Nat.eqb_eq in Hk.
    exists (take k chunks), (drop k chunks). by rewrite take_drop.
  - intros (l1 & l2 & -> & Hn). exists (length l1). split.
    + apply in_seq. rewrite length_app. lia.
    + rewrite take_app_length. by apply Nat.eqb_eq.
Qed.

(** A stream is cut right after the text [p] exactly when the stream
    without its empty chunks is. *)
Lemma boundary_nonempty (chunks : list gostring) (p : gostring) :
  (exists l1 l2, chunks = l1 ++ l2 /\ concat l1 = p) <->
  (exists m1 m2, nonempty chunks = m1 ++ m2 /\ concat m1 = p).
Proof.
  split.
  - intros (l1 & l2 & -> & <-). exists (nonempty l1), (nonempty l2).
    split; [apply List.filter_app | apply concat_nonempty].
  - intros (m1 & m2 & H & <-).
    destruct (nonempty_app_inv _ _ _ H) as (l1 & l2 & -> & <- & _).
    exists l1, l2. split; [done|]. symmetry. apply concat_nonempty.
Qed.

Lemma helloCheck_all : forallb helloCheck (compositions (str "hello do(")) = true.
Proof. by vm_compute. Qed.

(** C4 (as the code has it). The text [hello do(] contains no complete
    marker, so, however it is cut into chunks, the live segmenter never
    enters the action phase; it prints a prefix of [hello ], which is all of
    [hello ] exactly when a chunk ends right after [hello ]. When the text
    goes on to a complete marker, [hello do(action=], every way of cutting
    it prints exactly [hello ] and changes the phase exactly once. *)
Theorem segment_hello :
  (forall chunks,
      concat chunks = str "hello do(" ->
      inActionPhase (segment chunks) = false
      /\ phaseFlips live0 (chunked chunks) = 0%nat
      /\ stdout (segment chunks) `prefix_of` str "hello "
      /\ (stdout (segment chunks) = str "hello "
          <-> exists l1 l2, chunks = l1 ++ l2 /\ concat l1 = str "hello "))
  /\ (forall chunks,
      concat chunks = str "hello do(action=" ->
      stdout (segment chunks) = str "hello "
      /\ inActionPhase (segment chunks) = true
      /\ phaseFlips live0 (chunked chunks) = 1%nat).
Proof.
  split.
  - intros chunks Hc.
    assert (helloCheck (nonempty chunks) = true) as Hchk.
    { pose proof helloCheck_all as H. rewrite forallb_forall in H. apply H.
      rewrite <- Hc, <- concat_nonempty.
      apply compositions_complete, nonempty_Forall. }
    unfold helloCheck in Hchk. rewrite phaseFlips_final in Hchk. simpl in Hchk.
    unfold segment in *. rewrite recvLoop_nonempty in Hchk.
    rewrite phaseFlips_final. simpl.
    apply andb_true_iff in Hchk as [Hchk Hb].
    apply andb_true_iff in Hchk as [Hchk Hp].
    apply andb_true_iff in Hchk as [Hph _].
    apply negb_true_iff in Hph. rewrite Hph.
    split; [done|]. split; [done|]. split; [by apply HasPrefix_prefix|].
    apply Bool.eqb_prop in Hb.
    rewrite <- streq_true, Hb, boundaryAt_true, boundary_nonempty.
    split.
    + intros (m1 & m2 & Hm & Hlen). exists m1, m2. split; [done|].
      assert (concat m1 ++ concat m2 = str "hello do(") as Hcat
        by (by rewrite <- concat_app, <- Hm, concat_nonempty).
      rewrite <- (take_app_length (concat m1) (concat m2)).
      by rewrite Hcat, Hlen.
    + intros (m1 & m2 & Hm & Hcat). exists m1, m2. split; [done|]. by rewrite Hcat.
  - intros chunks Hc.
    destruct (segment_inv chunks []) as [Hinv Hraw].
    rewrite app_nil_r, Hc in Hinv. rewrite Hc in Hraw.
    rewrite phaseFlips_final. simpl. fold (segment chunks).
    destruct Hinv as (_ & _ & Hphase).
    destruct (inActionPhase (segment chunks)).
    + split; [|done]. destruct Hphase as (m & rest & Hm & Hr). rewrite Hraw in Hr.
      assert (occursAt (str "hello do(action=") m (length (stdout (segment chunks))))
        as Hocc by (by exists (stdout (segment chunks)), rest).
      apply occursAt_drop in Hocc as [Hlen Hpre].
      assert (length (stdout (segment chunks)) = 6%nat) as H6.
      { destruct Hm as [<-|[<-|[]]]; revert Hlen Hpre;
          generalize (length (stdout (segment chunks))); intros n Hn;
          do 17 (destruct n as [|n]; [by vm_compute|]); simpl in Hn; lia. }
      rewrite <- (take_app_length (stdout (segment chunks)) (m ++ rest)).
      by rewrite <- Hr, H6.
    + exfalso. destruct Hphase as [_ Hnone].
      rewrite Hraw in Hnone. by specialize (Hnone (str "do(action=") ltac:(right; by left)).
Qed.

(** The stream that delivers [hello ] and then [do(]. *)
Lemma segment_hello_witness :
  stdout (segment [str "hello "; str "do("]) = str "hello "
  /\ inActionPhase (segment [str "hello "; str "do("]) = false.
Proof.
  destruct segment_hello as [H _].
  destruct (H [str "hello "; str "do("] eq_refl) as (Hph & _ & _ & Hout).
  split; [|done]. apply Hout. by exists [str "hello "], [str "do("].
Defined.

(** C4 does not hold as stated: when [hello do(] arrives as one chunk,
    nothing is printed and the phase does not change. *)
Lemma segment_hello_one_chunk :
  ~ (forall chunks,
        concat chunks = str "hello do(" ->
        stdout (segment chunks) = str "hello "
        /\ phaseFlips live0 (chunked chunks) = 1%nat).
Proof.
  intros H. destruct (H [str "hello do("] eq_refl) as [Hout _].
  vm_compute in Hout. discriminate Hout.
Qed.

(** ** Integers written and read back *)









Lemma Atoi_range (s : gostring) (i : Z) : Atoi s = Some i -> minInt <= i <= maxInt.
Proof.
  unfold Atoi.
  destruct (match s with
            | [] => (false, s)
            | c :: r => if Ascii.eqb c "-" then (true, r)
                        else if Ascii.eqb c "+" then (false, r) else (false, s)
            end) as [neg ds].
  destruct ds; [done|]. destruct (parseDigits 0 _); [|done].
  destruct (_ && _) eqn:E; [|done].
  intros [= <-]. apply andb_true_iff in E as [H1 H2].
  apply Z.leb_le in H1, H2. done.
Qed.

(** ** Texts without white space and without separator *)








(** ** [Split] undoes [Join] *)

Section SplitJoin.

Variable sep : gostring.
Hypothesis sep_cuts :
  forall t rest, Contains t sep = false -> Cut (t ++ sep ++ rest) sep = Some (t, rest).




End SplitJoin.

(** The pieces of a split are free of the separator. *)
Lemma genSplit_clean (sep : gostring) (n : nat) (s p : gostring) :
  (length s < length sep * S n)%nat ->
  In p (genSplit n s sep) -> Contains p sep = false.
Proof.
  revert s; induction n as [|n IH]; intros s Hlen.
  - intros [<-|[]]. destruct (Contains s sep) eqn:E; [|done].
    apply Contains_occurs in E as (a & x & y & -> & _).
    rewrite !length_app, Nat.mul_1_r in Hlen. lia.
  - cbn [genSplit]. destruct (Cut s sep) as [[before after]|] eqn:E.
    + apply Cut_Some in E as [-> Hfirst]. intros [<-|Hin].
      * destruct (Contains before sep) eqn:Eb; [|done]. exfalso.
        apply Contains_occurs in Eb as [a Ha].
        assert (0 < length sep)%nat
          by (destruct (length sep); [simpl in Hlen; lia | lia]).
        apply (Hfirst a).
        -- apply occursAt_lookup in Ha. lia.
        -- by apply occursAt_app_l.
      * apply (IH after); [|done].
        rewrite !length_app, (Nat.mul_succ_r _ (S n)) in Hlen. lia.
    + intros [<-|[]]. by apply Cut_None.
Qed.

Lemma Split_clean (sep s p : gostring) :
  sep <> [] -> In p (Split s sep) -> Contains p sep = false.
Proof.
  intros Hsep. apply genSplit_clean. destruct sep; [done|]. simpl. lia.
Qed.

(** ** Values written and read back *)





Section RoundTrip.

Context {float64 : Type} (ParseFloat : gostring -> option float64).
Context (FormatFloat : float64 -> gostring).


Lemma parseLiteral_bracket (inner : gostring) :
  parseLiteral ParseFloat ("["%char :: inner ++ ["]"%char])
  = if streq (TrimSpace inner) [] then Returns (AInts [], None)
    else Returns (parseInts (Split (TrimSpace inner) (str ",")) []).
Proof.
  unfold parseLiteral.
  assert (HasPrefix ("["%char :: inner ++ ["]"%char]) [dquote] = false) as -> by reflexivity.
  cbn [andb].
  destruct (streq _ (str "true")) eqn:E1; [by apply streq_true in E1|].
  destruct (streq _ (str "false")) eqn:E2; [by apply streq_true in E2|].
  assert (HasPrefix ("["%char :: inner ++ ["]"%char]) (str "[") = true) as -> by reflexivity.
  assert (HasSuffix ("["%char :: inner ++ ["]"%char]) (str "]") = true) as ->
    by apply (HasSuffix_app ("["%char :: inner) (str "]")).
  cbn [andb]. by rewrite slice_mid.
Qed.


Lemma parseInts_range (parts : list gostring) (acc : list Z) (v : any float64) :
  parseInts parts acc = (v, None) ->
  Forall (fun i => minInt <= i <= maxInt) acc ->
  exists l, v = AInts l /\ Forall (fun i => minInt <= i <= maxInt) l.
Proof.
  revert acc; induction parts as [|p parts IH]; intros acc; simpl.
  - intros [= <-] H. by exists acc.
  - destruct (Atoi (TrimSpace p)) as [i|] eqn:E; [|done].
    intros H Hacc. apply (IH _ H). apply Forall_app. split; [done|].
    constructor; [by apply (Atoi_range _ _ E) | constructor].
Qed.

Lemma Contains_sub_false (s t m : gostring) :
  Contains s t = true -> Contains s m = false -> Contains t m = false.
Proof.
  intros Hst Hsm. destruct (Contains t m) eqn:E; [|done].
  by rewrite (Contains_trans _ _ _ Hst E) in Hsm.
Qed.

(** What the literal parser returns for a token without comma-space is a
    good value. *)
Lemma parseLiteral_good (s : gostring) (v : any float64) :
  parseLiteral ParseFloat s = Returns (v, None) ->
  Contains s (str ", ") = false -> goodValue ParseFloat v.
Proof.
  unfold parseLiteral. intros H Hs. revert H.
  destruct (HasPrefix s [dquote] && HasSuffix s [dquote]) eqn:E1.
  { apply andb_true_iff in E1 as [H1 H2].
    destruct (ends_shape _ _ _ H1 H2) as [[-> _]|[m ->]]; [done|].
    rewrite slice_mid. intros [= <-]. cbn [goodValue].
    apply (Contains_sub_false _ _ _ (Contains_app [dquote] m [dquote]) Hs). }
  destruct (streq s (str "true")); [by intros [= <-]|].
  destruct (streq s (str "false")); [by intros [= <-]|].
  destruct (HasPrefix s (str "[") && HasSuffix s (str "]")) eqn:E2.
  { apply andb_true_iff in E2 as [H1 H2].
    destruct (ends_shape _ _ _ H1 H2) as [[_ ?]|[m ->]]; [done|].
    rewrite slice_mid, bind_Returns. destruct (streq _ _).
    - intros [= <-]. constructor.
    - intros [= H]. by apply parseInts_range in H as (l & -> & Hl). }
  destruct (Atoi _) as [i|] eqn:Ei.
  { intros [= <-]. by apply (Atoi_range _ _ Ei). }
  destruct (ParseFloat _) as [f|] eqn:Ef; [|done].
  intros [= <-]. cbn [goodValue]. eauto.
Qed.

(** A successful run of the loop over the argument tokens: the keys and
    the values it has put in the Action, in order. *)
Lemma parseArgs_success (parts : list gostring)
    (m0 action : gmap gostring (any float64)) :
  parseArgs ParseFloat parts m0 = Returns (Some action, None) ->
  Forall (fun p => Contains p (str ", ") = false) parts ->
  exists kvs : list (gostring * any float64),
    map fst kvs = map keyOf parts
    /\ Forall (fun kv => Contains kv.1 (str "=") = false /\ TrimSpace kv.1 = kv.1
                         /\ Contains kv.1 (str ", ") = false
                         /\ goodValue ParseFloat kv.2) kvs
    /\ action = fold_left (fun m kv => <[kv.1 := kv.2]> m) kvs m0.
Proof.
  revert m0; induction parts as [|part parts IH]; intros m0.
  - intros [= <-] _. by exists [].
  - cbn [parseArgs]. intros H Hall. apply Forall_cons in Hall as [Hpart Hall].
    cbn [map]. unfold keyOf at 1. unfold SplitN2 in *.
    destruct (Cut part (str "=")) as [[k v]|] eqn:E; [|done].
    destruct (parseLiteral ParseFloat (TrimSpace v)) as [[val [err|]]|] eqn:EL; [done| |done].
    rewrite bind_Returns in H.
    destruct (IH _ H Hall) as (kvs & Hkeys & Hgood & ->).
    exists ((TrimSpace k, val) :: kvs). split; [cbn; by rewrite Hkeys|].
    split; [|done]. constructor; [|done]. cbn.
    apply Cut_Some in E as [Hp Hfirst].
    assert (Contains part k = true) as Hk
      by (rewrite Hp; apply (Contains_app [] k)).
    assert (Contains part (TrimSpace k) = true) as Hk'.
    { eapply Contains_trans; [exact Hk | apply Contains_TrimSpace]. }
    assert (Contains part (TrimSpace v) = true) as Hv.
    { eapply Contains_trans; [|apply Contains_TrimSpace].
      rewrite Hp, app_assoc. apply Contains_self_suffix. }
    split; [|split; [apply TrimSpace_idem|split]].
    + apply (Contains_sub_false k); [apply Contains_TrimSpace|].
      destruct (Contains k (str "=")) eqn:Ek; [|done]. exfalso.
      apply Contains_occurs in Ek as [a Ha].
      apply (Hfirst a).
      * apply occursAt_lookup in Ha. simpl in Ha. lia.
      * rewrite Hp. by apply occursAt_app_l.
    + by apply (Contains_sub_false part).
    + apply (parseLiteral_good _ _ EL). by apply (Contains_sub_false part).
Qed.


End RoundTrip.

(** ** Folding insertions into a map *)

Section Refold.

Context {V : Type}.


Lemma fold_kvs_lookup (kvs : list (gostring * V)) (m0 : gmap gostring V) (k : gostring) :
  (k ∈ kvs.*1 ->
   exists v, fold_left (fun m kv => <[kv.1 := kv.2]> m) kvs m0 !! k = Some v
             /\ (k, v) ∈ kvs)
  /\ (k ∉ kvs.*1 ->
      fold_left (fun m kv => <[kv.1 := kv.2]> m) kvs m0 !! k = m0 !! k).
Proof.
  revert m0; induction kvs as [|[k1 v1] kvs IH]; intros m0; cbn.
  - split; [by intros ?%elem_of_nil | done].
  - destruct (IH (<[k1 := v1]> m0)) as [IH1 IH2].
    destruct (decide (k ∈ kvs.*1)) as [Hin|Hin].
    + split; [|intros Hn; exfalso; apply Hn; by right].
      intros _. destruct (IH1 Hin) as (v & Hv & Hkv). exists v. split; [done | by right].
    + rewrite (IH2 Hin). split.
      * intros [->|?]%elem_of_cons; [|done]. exists v1.
        split; [apply lookup_insert_eq | by left].
      * intros Hn. apply lookup_insert_ne. intros ->. apply Hn. by left.
Qed.


End Refold.

(** ** The round trip of a [do(...)] expression *)





Section RoundTripClaim.

Context {float64 : Type} (ParseFloat : gostring -> option float64).
Context (FormatFloat : float64 -> gostring).


(** An expression that [parseDoCall] accepts is [do(], its argument list
    and [)]. *)
Lemma do_form (expr : gostring) :
  HasPrefix expr (str "do(") = true -> HasSuffix expr (str ")") = true ->
  expr = str "do(" ++ doBody expr ++ str ")".
Proof.
  intros Hp Hs. unfold doBody, TrimPrefix. rewrite Hp.
  apply HasPrefix_prefix in Hp as [r ->]. rewrite drop_app_length.
  apply HasSuffix_suffix in Hs as [k Hk].
  destruct (decide (r = [])) as [->|Hr].
  { exfalso. destruct k as [|? [|? [|? k]]]; try discriminate Hk.
    destruct k; discriminate Hk. }
  destruct (exists_last Hr) as (r' & c & ->).
  rewrite app_assoc in Hk. apply app_inj_tail in Hk as [_ ->].
  unfold TrimSuffix. rewrite HasSuffix_app, length_app. simpl length.
  replace (length r' + 1 - 1)%nat with (length r') by lia.
  by rewrite take_app_length.
Qed.


End RoundTripClaim.



(** * Further properties *)

(** ** [parseResponse]: the four rules *)

Lemma SplitN2_Contains (s m : gostring) :
  Contains s m = true ->
  exists before after,
    Cut s m = Some (before, after) /\ SplitN2 s m = [before; after].
Proof.
  intros H. unfold SplitN2. destruct (Cut s m) as [[b a]|] eqn:E.
  - by exists b, a.
  - apply Cut_None in E. congruence.
Qed.

(** X1. [parseResponse] returns on every text: none of its index
    expressions [parts[0]], [parts[1]] is ever out of range. The thinking it
    returns has no white space at either end. *)
Theorem parseResponse_returns (content : gostring) :
  exists thinking action,
    parseResponse content = Returns (thinking, action)
    /\ TrimSpace thinking = thinking.
Proof.
  unfold parseResponse.
  destruct (Contains content (str "finish(message=")) eqn:E1.
  { destruct (SplitN2_Contains _ _ E1) as (b & a & _ & ->).
    eexists _, _. split; [done|]. apply TrimSpace_idem. }
  destruct (Contains content (str "do(action=")) eqn:E2.
  { destruct (SplitN2_Contains _ _ E2) as (b & a & _ & ->).
    eexists _, _. split; [done|]. apply TrimSpace_idem. }
  destruct (Contains content (str "<answer>")) eqn:E3.
  { destruct (SplitN2_Contains _ _ E3) as (b & a & _ & ->).
    eexists _, _. split; [done|]. apply TrimSpace_idem. }
  by eexists _, _.
Qed.

(** X2. Rule 2: in a text without [finish(message=], the split is made at
    the first occurrence of [do(action=]. *)
Theorem parseResponse_do (content pre post : gostring) :
  Contains content (str "finish(message=") = false ->
  content = pre ++ str "do(action=" ++ post ->
  (forall k, (k < length pre)%nat -> ~ occursAt content (str "do(action=") k) ->
  parseResponse content = Returns (TrimSpace pre, str "do(action=" ++ post).
Proof.
  intros Hfin -> Hfirst. unfold parseResponse. rewrite Hfin, Contains_app.
  destruct (index_SplitN2_cut _ _ _ _ (Cut_first pre _ post Hfirst)) as [-> ->].
  reflexivity.
Qed.

Lemma parseResponse_do_witness :
  parseResponse (str "I think... do(action=Tap)")
  = Returns (str "I think...", str "do(action=Tap)").
Proof.
  apply (parseResponse_do _ (str "I think... ") (str "Tap)")).
  - reflexivity.
  - reflexivity.
  - apply (proj1 (Index_Some _ _ _)). vm_compute. reflexivity.
Defined.

(** X3. Unless the legacy rule applies (no marker, but [<answer>]), the
    split loses nothing: the action is an end of the text, and the thinking
    is the trimmed text in front of it. *)
Theorem parseResponse_rebuild (content thinking action : gostring) :
  Contains content (str "finish(message=") = true
  \/ Contains content (str "do(action=") = true
  \/ Contains content (str "<answer>") = false ->
  parseResponse content = Returns (thinking, action) ->
  exists before, content = before ++ action /\ thinking = TrimSpace before.
Proof.
  intros Hrule. unfold parseResponse.
  destruct (Contains content (str "finish(message=")) eqn:E1.
  { destruct (SplitN2_Contains _ _ E1) as (b & a & Hcut & ->).
    apply Cut_Some in Hcut as [-> _]. intros [= <- <-]. by exists b. }
  destruct (Contains content (str "do(action=")) eqn:E2.
  { destruct (SplitN2_Contains _ _ E2) as (b & a & Hcut & ->).
    apply Cut_Some in Hcut as [-> _]. intros [= <- <-]. by exists b. }
  destruct Hrule as [?|[?|H3]]; [done | done |]. rewrite H3.
  intros [= <- <-]. by exists [].
Qed.

Lemma parseResponse_rebuild_witness :
  exists before,
    str "no markers here" = before ++ str "no markers here" /\ [] = TrimSpace before.
Proof.
  apply (parseResponse_rebuild (str "no markers here") [] (str "no markers here")).
  - right. right. reflexivity.
  - reflexivity.
Defined.

(** ** Rule 3: the legacy tags *)

Lemma replaceN_none (n : nat) (s old new : gostring) :
  Contains s old = false -> replaceN n s old new = s.
Proof.
  intros H. destruct n; [done|]. cbn [replaceN]. by rewrite (proj2 (Cut_None _ _) H).
Qed.

(** Replacing the one occurrence of [old]. *)
Lemma ReplaceAll_one (x y old new : gostring) :
  old <> [] ->
  (forall k, (k < length x)%nat -> ~ occursAt (x ++ old ++ y) old k) ->
  Contains y old = false ->
  ReplaceAll (x ++ old ++ y) old new = x ++ new ++ y.
Proof.
  intros Hold Hfirst Hy. unfold ReplaceAll.
  destruct (length (x ++ old ++ y)) as [|n] eqn:Hn.
  { apply nil_length_inv, app_eq_nil in Hn as [_ Hn].
    by apply app_eq_nil in Hn as [? _]. }
  cbn [replaceN]. rewrite (Cut_first x old y Hfirst).
  by rewrite replaceN_none.
Qed.

(** An occurrence starts with the first byte of what occurs. *)
Lemma free_skip (x y m' : gostring) (c : ascii) (k : nat) :
  ~ In c x -> occursAt (x ++ y) (c :: m') k -> (length x <= k)%nat.
Proof.
  intros Hx Hocc. destruct (decide (length x <= k)%nat) as [|Hk]; [done|].
  exfalso. apply Hx. apply occursAt_lookup in Hocc as [_ Hocc].
  specialize (Hocc 0%nat ltac:(simpl; lia)).
  rewrite Nat.add_0_r, lookup_app_l in Hocc by lia.
  apply list_elem_of_In. by eapply list_elem_of_lookup_2.
Qed.

(** No text that starts with [c] and goes on differently from the tag [T]
    occurs from inside [T] on, when [c] is the first byte of [T] only. *)
Lemma tag_skip (T' y m' : gostring) (c a b : ascii) (k : nat) :
  ~ In c T' -> T' !! 0%nat = Some a -> m' !! 0%nat = Some b -> a <> b ->
  occursAt ((c :: T') ++ y) (c :: m') k -> (length (c :: T') <= k)%nat.
Proof.
  intros HT Ha Hb Hab Hocc.
  destruct (decide (length (c :: T') <= k)%nat) as [|Hk]; [done|]. exfalso.
  apply occursAt_lookup in Hocc as [_ Hocc].
  destruct k as [|k].
  - specialize (Hocc 1%nat ltac:(apply lookup_lt_Some in Hb; simpl; lia)).
    simpl in Hocc. rewrite lookup_app_l in Hocc by (apply lookup_lt_Some in Ha; lia).
    congruence.
  - specialize (Hocc 0%nat ltac:(simpl; lia)).
    rewrite Nat.add_0_r in Hocc. simpl in Hocc, Hk.
    rewrite lookup_app_l in Hocc by lia.
    apply HT, list_elem_of_In. by eapply list_elem_of_lookup_2.
Qed.

(** X4. Rule 3 on the legacy form: for a text without marker that is
    [<think>], a text [t], [</think><answer>], a text [x], [</answer>] and a
    text [y], none of [t], [x], [y] holding the byte [<], the thinking is [t]
    trimmed and the action is [x] and [y] together, trimmed: the closing tag
    is taken out wherever it stands, not only at the end. *)
Theorem parseResponse_legacy (t x y : gostring) :
  let content := str "<think>" ++ t ++ str "</think>" ++ str "<answer>"
                 ++ x ++ str "</answer>" ++ y in
  ~ In "<"%char t -> ~ In "<"%char x -> ~ In "<"%char y ->
  Contains content (str "finish(message=") = false ->
  Contains content (str "do(action=") = false ->
  parseResponse content = Returns (TrimSpace t, TrimSpace (x ++ y)).
Proof.
  intros content Ht Hx Hy Hfin Hdo. unfold parseResponse. rewrite Hfin, Hdo.
  assert (content = (str "<think>" ++ t ++ str "</think>") ++ str "<answer>"
                    ++ (x ++ str "</answer>" ++ y)) as Hc
    by (unfold content; by rewrite <- !app_assoc).
  assert (Cut content (str "<answer>")
          = Some (str "<think>" ++ t ++ str "</think>", x ++ str "</answer>" ++ y)) as Hcut.
  { rewrite Hc. apply Cut_first. rewrite <- Hc. intros k Hk Hocc.
    rewrite !length_app in Hk. unfold content in Hocc.
    pose proof (tag_skip (str "think>") _ (str "answer>") "<" "t" "a" k
                  ltac:(by vm_compute; intuition discriminate) eq_refl eq_refl
                  ltac:(discriminate) Hocc) as H1.
    apply occursAt_inv_r in Hocc; [|exact H1].
    pose proof (free_skip t _ (str "answer>") "<" _ Ht Hocc) as H2.
    apply occursAt_inv_r in Hocc; [|exact H2].
    pose proof (tag_skip (str "/think>") _ (str "answer>") "<" "/" "a" _
                  ltac:(by vm_compute; intuition discriminate) eq_refl eq_refl
                  ltac:(discriminate) Hocc) as H3.
    simpl in H1, H3, Hk. lia. }
  assert (Contains content (str "<answer>") = true) as ->
    by (rewrite Hc; apply Contains_app).
  unfold SplitN2. rewrite Hcut. cbn [index lookup list_lookup]. rewrite !bind_Returns.
  cbn [fst snd].
  assert (ReplaceAll (str "<think>" ++ t ++ str "</think>") (str "<think>") []
          = t ++ str "</think>") as ->.
  { apply (ReplaceAll_one [] (t ++ str "</think>") (str "<think>") []); [done| |].
    - intros k Hk. simpl in Hk. lia.
    - destruct (Contains (t ++ str "</think>") (str "<think>")) eqn:E; [|done]. exfalso.
      apply Contains_occurs in E as [k Hocc].
      pose proof (free_skip t _ (str "think>") "<" _ Ht Hocc) as H1.
      apply occursAt_inv_r in Hocc; [|exact H1].
      rewrite <- (app_nil_r (str "</think>")) in Hocc.
      pose proof (tag_skip (str "/think>") _ (str "think>") "<" "/" "t" _
                    ltac:(by vm_compute; intuition discriminate) eq_refl eq_refl
                    ltac:(discriminate) Hocc) as H2.
      rewrite app_nil_r in Hocc. apply occursAt_lookup in Hocc as [Hl _].
      simpl in H2, Hl. lia. }
  assert (ReplaceAll (t ++ str "</think>") (str "</think>") [] = t) as ->.
  { rewrite <- (app_nil_r (str "</think>")) at 1.
    rewrite (ReplaceAll_one t [] (str "</think>") []); [by rewrite app_nil_r | done | | done].
    intros k Hk Hocc.
    pose proof (free_skip t _ (str "/think>") "<" _ Ht Hocc). lia. }
  assert (ReplaceAll (x ++ str "</answer>" ++ y) (str "</answer>") [] = x ++ y) as ->.
  { apply (ReplaceAll_one x y (str "</answer>") []); [done| |].
    - intros k Hk Hocc.
      pose proof (free_skip x _ (str "/answer>") "<" _ Hx Hocc). lia.
    - destruct (Contains y (str "</answer>")) eqn:E; [|done]. exfalso.
      apply Contains_occurs in E as [k Hocc].
      rewrite <- (app_nil_r y) in Hocc.
      pose proof (free_skip y _ (str "/answer>") "<" _ Hy Hocc) as H1.
      rewrite app_nil_r in Hocc. apply occursAt_lookup in Hocc as [Hl _].
      simpl in Hl. lia. }
  reflexivity.
Qed.

Lemma parseResponse_legacy_witness :
  parseResponse (str "<think>foo</think><answer>bar</answer> baz")
  = Returns (str "foo", str "bar baz").
Proof.
  apply (parseResponse_legacy (str "foo") (str "bar") (str " baz"));
    try reflexivity; vm_compute; intuition discriminate.
Defined.

(** ** [parseLiteral]: values, errors and integer lists *)

Section LiteralFacts.

Context {float64 : Type} (ParseFloat : gostring -> option float64).

Lemma parseLiteral_typed (s : gostring) (v : any float64) :
  parseLiteral ParseFloat s = Returns (v, None) -> typedValue v.
Proof.
  unfold parseLiteral.
  destruct (HasPrefix s [dquote] && HasSuffix s [dquote]) eqn:E1.
  { apply andb_true_iff in E1 as [H1 H2].
    destruct (ends_shape _ _ _ H1 H2) as [[-> _]|[m ->]]; [done|].
    rewrite slice_mid. by intros [= <-]. }
  destruct (streq s (str "true")); [by intros [= <-]|].
  destruct (streq s (str "false")); [by intros [= <-]|].
  destruct (HasPrefix s (str "[") && HasSuffix s (str "]")) eqn:E2.
  { apply andb_true_iff in E2 as [H1 H2].
    destruct (ends_shape _ _ _ H1 H2) as [[_ ?]|[m ->]]; [done|].
    rewrite slice_mid, bind_Returns. destruct (streq _ _).
    - intros [= <-]. constructor.
    - intros [= H]. by apply parseInts_range in H as (l & -> & Hl). }
  destruct (Atoi _) as [i|] eqn:Ei.
  { intros [= <-]. by apply (Atoi_range _ _ Ei). }
  by destruct (ParseFloat _) as [f|]; intros [= <-].
Qed.

(** X5. Whenever [parseLiteral] returns, it returns a value or an error,
    never both and never neither: with a nil error the value is not nil and
    its integers fit [int]; with an error the value is nil. *)
Theorem parseLiteral_value_or_error (s : gostring) (v : any float64) (e : error) :
  parseLiteral ParseFloat s = Returns (v, e) ->
  (e = None /\ typedValue v) \/ (v = ANil /\ exists msg, e = Some msg).
Proof.
  destruct e as [msg|]; intros H.
  - right. apply parseLiteral_error in H as [-> _]. eauto.
  - left. split; [done|]. by apply parseLiteral_typed in H.
Qed.

Lemma parseInts_all (parts : list gostring) (vals acc : list Z) :
  Forall2 (fun p v => Atoi (TrimSpace p) = Some v) parts vals ->
  parseInts (float64 := float64) parts acc = (AInts (acc ++ vals), None).
Proof.
  intros H. revert acc. induction H as [|p v parts vals Hp _ IH]; intros acc; simpl.
  - by rewrite app_nil_r.
  - rewrite Hp, IH. by rewrite <- app_assoc.
Qed.

Lemma parseInts_first_failure (good rest : list gostring) (p : gostring) (acc : list Z) :
  Forall (fun q => is_Some (Atoi (TrimSpace q))) good ->
  Atoi (TrimSpace p) = None ->
  parseInts (float64 := float64) (good ++ p :: rest) acc
  = (ANil, Some (str "invalid int in array: " ++ p)).
Proof.
  intros Hgood Hp. revert acc. induction Hgood as [|q good [v Hq] _ IH]; intros acc; simpl.
  - by rewrite Hp.
  - by rewrite Hq, IH.
Qed.

(** X6. A bracketed token whose inside is blank is the empty list; one
    whose inside, once trimmed, splits on commas into pieces that [Atoi]
    reads after trimming is the list of those integers, in order. *)
Theorem parseLiteral_int_list (inner : gostring) (vals : list Z) :
  (TrimSpace inner = [] /\ vals = [])
  \/ (TrimSpace inner <> []
      /\ Forall2 (fun p v => Atoi (TrimSpace p) = Some v)
                 (Split (TrimSpace inner) (str ",")) vals) ->
  parseLiteral ParseFloat (str "[" ++ inner ++ str "]") = Returns (AInts vals, None).
Proof.
  intros H.
  change (str "[" ++ inner ++ str "]") with ("["%char :: inner ++ ["]"%char]).
  rewrite parseLiteral_bracket. destruct H as [[-> ->]|[Hne Hall]]; [done|].
  apply streq_false in Hne. rewrite Hne. by rewrite (parseInts_all _ vals []).
Qed.

(** X7. A bracketed token fails as a whole on the first piece that is no
    integer: the value is nil and the error quotes that piece, untrimmed;
    the integers read before it are dropped. *)
Theorem parseLiteral_int_list_failure (inner p : gostring) (good rest : list gostring) :
  TrimSpace inner <> [] ->
  Split (TrimSpace inner) (str ",") = good ++ p :: rest ->
  Forall (fun q => is_Some (Atoi (TrimSpace q))) good ->
  Atoi (TrimSpace p) = None ->
  parseLiteral ParseFloat (str "[" ++ inner ++ str "]")
  = Returns (ANil, Some (str "invalid int in array: " ++ p)).
Proof.
  intros Hne Hsplit Hgood Hp.
  change (str "[" ++ inner ++ str "]") with ("["%char :: inner ++ ["]"%char]).
  rewrite parseLiteral_bracket. apply streq_false in Hne. rewrite Hne, Hsplit.
  by rewrite parseInts_first_failure.
Qed.

End LiteralFacts.

Lemma parseLiteral_value_or_error_witness :
  (Some (str "unsupported literal: click") = None /\ typedValue (@ANil sampleFloat))
  \/ (@ANil sampleFloat = ANil
      /\ exists msg, Some (str "unsupported literal: click") = Some msg).
Proof.
  apply (parseLiteral_value_or_error sampleParseFloat (str "click") ANil
           (Some (str "unsupported literal: click"))).
  reflexivity.
Defined.

Lemma parseLiteral_int_list_witness :
  parseLiteral sampleParseFloat (str "[" ++ str " 1, -2 ,+3 " ++ str "]")
  = Returns (AInts [1; -2; 3], None).
Proof.
  apply (parseLiteral_int_list sampleParseFloat (str " 1, -2 ,+3 ") [1; -2; 3]).
  right. split; [discriminate|].
  assert (Split (TrimSpace (str " 1, -2 ,+3 ")) (str ",")
          = [str "1"; str " -2 "; str "+3"]) as -> by (vm_compute; reflexivity).
  repeat (constructor; [vm_compute; reflexivity|]). constructor.
Defined.

Lemma parseLiteral_int_list_failure_witness :
  parseLiteral sampleParseFloat (str "[" ++ str "1,2,,4" ++ str "]")
  = Returns (ANil, Some (str "invalid int in array: ")).
Proof.
  apply (parseLiteral_int_list_failure sampleParseFloat (str "1,2,,4") []
           [str "1"; str "2"] [str "4"]).
  - discriminate.
  - reflexivity.
  - repeat constructor; by eexists.
  - reflexivity.
Defined.


(** ** [parseDoCall]: the Action it builds *)

Section ActionFacts.

Context {float64 : Type} (ParseFloat : gostring -> option float64).

Lemma keyOf_cut (part k v : gostring) :
  Cut part (str "=") = Some (k, v) -> keyOf part = TrimSpace k.
Proof. intros H. unfold keyOf, SplitN2. by rewrite H. Qed.

(** One round of the loop over the argument tokens, in a successful run. *)
Lemma parseArgs_step (part : gostring) (parts : list gostring)
    (m action : gmap gostring (any float64)) :
  parseArgs ParseFloat (part :: parts) m = Returns (Some action, None) ->
  exists k v val,
    Cut part (str "=") = Some (k, v)
    /\ parseLiteral ParseFloat (TrimSpace v) = Returns (val, None)
    /\ parseArgs ParseFloat parts (<[keyOf part := val]> m) = Returns (Some action, None).
Proof.
  cbn [parseArgs]. unfold SplitN2.
  destruct (Cut part (str "=")) as [[k v]|] eqn:E; [|done].
  destruct (parseLiteral ParseFloat (TrimSpace v)) as [[val [err|]]|] eqn:EL; [done| |done].
  rewrite bind_Returns. intros H. exists k, v, val.
  by rewrite (keyOf_cut _ _ _ E).
Qed.

Lemma parseArgs_dom (parts : list gostring) (m action : gmap gostring (any float64))
    (key : gostring) :
  parseArgs ParseFloat parts m = Returns (Some action, None) ->
  is_Some (action !! key) <-> is_Some (m !! key) \/ In key (map keyOf parts).
Proof.
  revert m; induction parts as [|part parts IH]; intros m.
  - intros [= <-]. simpl. tauto.
  - intros (k & v & val & _ & _ & H)%parseArgs_step.
    rewrite (IH _ H). cbn [map In]. rewrite lookup_insert_is_Some.
    destruct (decide (keyOf part = key)); tauto.
Qed.

Lemma parseArgs_values (parts : list gostring) (m action : gmap gostring (any float64)) :
  parseArgs ParseFloat parts m = Returns (Some action, None) ->
  map_Forall (fun _ v => typedValue v) m ->
  map_Forall (fun _ v => typedValue v) action.
Proof.
  revert m; induction parts as [|part parts IH]; intros m.
  - by intros [= <-].
  - intros (k & v & val & _ & Hval & H)%parseArgs_step Hm.
    apply (IH _ H). apply map_Forall_insert_2; [|done].
    by apply (parseLiteral_typed ParseFloat (TrimSpace v)).
Qed.

Lemma parseArgs_keep (parts : list gostring) (m action : gmap gostring (any float64))
    (key : gostring) :
  parseArgs ParseFloat parts m = Returns (Some action, None) ->
  (forall p, In p parts -> keyOf p <> key) ->
  action !! key = m !! key.
Proof.
  revert m; induction parts as [|part parts IH]; intros m.
  - by intros [= <-].
  - intros (k & v & val & _ & _ & H)%parseArgs_step Hkeys.
    rewrite (IH _ H) by (intros p Hp; apply Hkeys; by right).
    apply lookup_insert_ne. apply Hkeys. by left.
Qed.

Lemma parseArgs_last (before after : list gostring) (part : gostring)
    (m action : gmap gostring (any float64)) :
  parseArgs ParseFloat (before ++ part :: after) m = Returns (Some action, None) ->
  (forall p, In p after -> keyOf p <> keyOf part) ->
  exists k v val,
    Cut part (str "=") = Some (k, v)
    /\ parseLiteral ParseFloat (TrimSpace v) = Returns (val, None)
    /\ action !! keyOf part = Some val.
Proof.
  revert m; induction before as [|p before IH]; intros m.
  - intros (k & v & val & Hcut & Hval & H)%parseArgs_step Hkeys.
    exists k, v, val. split; [done|]. split; [done|].
    rewrite (parseArgs_keep _ _ _ _ H Hkeys). apply lookup_insert_eq.
  - intros (k & v & val & _ & _ & H)%parseArgs_step Hkeys. by apply (IH _ H).
Qed.

Lemma base_typed :
  map_Forall (fun _ v => typedValue v)
    ({[ str "_metadata" := AString (str "do") ]} : gmap gostring (any float64)).
Proof. by apply map_Forall_singleton. Qed.

(** X8. Whenever [ParseAction] returns, it returns an Action or an error,
    never both and never neither; the Action has the key [_metadata], none
    of its values is nil, and its integers fit [int]. *)
Theorem ParseAction_result (raw : gostring)
    (oa : option (gmap gostring (any float64))) (e : error) :
  ParseAction ParseFloat raw = Returns (oa, e) ->
  (oa = None /\ exists msg, e = Some msg)
  \/ (e = None /\ exists action,
        oa = Some action
        /\ is_Some (action !! str "_metadata")
        /\ forall k v, action !! k = Some v -> typedValue v).
Proof.
  unfold ParseAction. destruct (HasPrefix (TrimSpace raw) (str "do(")) eqn:Edo.
  - unfold parseDoCall. rewrite Edo. cbn [negb orb].
    destruct (HasSuffix (TrimSpace raw) (str ")")); cbn [negb];
      [|rewrite bind_Returns; intros [= <- <-]; left; eauto].
    destruct (streq _ []).
    { rewrite bind_Returns. intros [= <- <-]. right. split; [done|].
      eexists. split; [done|]. split; [by rewrite lookup_singleton_eq|].
      apply base_typed. }
    destruct (parseArgs _ _ _) as [r|] eqn:E; [|done].
    rewrite bind_Returns.
    destruct (parseArgs_returns _ _ _ _ E) as [[a ->]|(msg & _ & _ & -> & _)].
    + intros [= <- <-]. right. split; [done|]. exists a. split; [done|]. split.
      * apply (parseArgs_dom _ _ _ (str "_metadata") E). left.
        by rewrite lookup_singleton_eq.
      * apply (parseArgs_values _ _ _ E base_typed).
    + intros [= <- <-]. left. eauto.
  - destruct (HasPrefix (TrimSpace raw) (str "finish"));
      [|intros [= <- <-]; left; eauto].
    unfold parseFinishMessage.
    destruct (GoRegexp.FindStringSubmatch _) as [|m0 [|m1 ms]];
      try solve [intros [= <- <-]; left; eauto].
    intros [= <- <-]. right. split; [done|]. eexists. split; [done|]. split.
    + by rewrite lookup_insert_eq.
    + intros k v. rewrite lookup_insert_Some, lookup_singleton_Some.
      by intros [[_ <-]|[_ [_ <-]]].
Qed.

(** X9. The keys of the Action of a [do(...)] expression are [_metadata]
    and the keys of the argument tokens, nothing else. *)
Theorem ParseAction_do_keys (raw body : gostring)
    (action : gmap gostring (any float64)) (key : gostring) :
  TrimSpace raw = str "do(" ++ body ++ str ")" ->
  ParseAction ParseFloat raw = Returns (Some action, None) ->
  is_Some (action !! key) <-> key = str "_metadata" \/ In key (argKeys body).
Proof.
  intros Hraw HA. apply (ParseAction_do_success _ _ _ _ _ Hraw) in HA as [_ HA].
  rewrite parseDoCall_body in HA. unfold argKeys.
  destruct (streq (TrimSpace body) []).
  - injection HA as <-. rewrite lookup_singleton_is_Some. cbn [In]. intuition.
  - rewrite (parseArgs_dom _ _ _ key HA), lookup_singleton_is_Some. intuition.
Qed.

(** X10. When two argument tokens have the same key, the later one wins:
    the Action holds, under the key of a token that no later token repeats,
    the value read from that token. This holds for the key [_metadata] too,
    which an argument of that name overwrites. *)
Theorem ParseAction_do_last_wins (raw body part : gostring)
    (before after : list gostring) (action : gmap gostring (any float64)) :
  TrimSpace raw = str "do(" ++ body ++ str ")" ->
  streq (TrimSpace body) [] = false ->
  Split body (str ", ") = before ++ part :: after ->
  (forall p, In p after -> keyOf p <> keyOf part) ->
  ParseAction ParseFloat raw = Returns (Some action, None) ->
  exists k v val,
    Cut part (str "=") = Some (k, v)
    /\ parseLiteral ParseFloat (TrimSpace v) = Returns (val, None)
    /\ action !! keyOf part = Some val.
Proof.
  intros Hraw Hbody Hsplit Hkeys HA.
  apply (ParseAction_do_success _ _ _ _ _ Hraw) in HA as [_ HA].
  rewrite parseDoCall_body, Hbody, Hsplit in HA.
  by apply (parseArgs_last _ _ _ _ _ HA).
Qed.

(** X11. Unless an argument is named [_metadata], the Action of a
    [do(...)] expression holds the string [do] under [_metadata]. *)
Theorem ParseAction_do_metadata (raw body : gostring)
    (action : gmap gostring (any float64)) :
  TrimSpace raw = str "do(" ++ body ++ str ")" ->
  ~ In (str "_metadata") (argKeys body) ->
  ParseAction ParseFloat raw = Returns (Some action, None) ->
  action !! str "_metadata" = Some (AString (str "do")).
Proof.
  intros Hraw Hkeys HA.
  apply (ParseAction_do_success _ _ _ _ _ Hraw) in HA as [_ HA].
  rewrite parseDoCall_body in HA. unfold argKeys in Hkeys.
  destruct (streq (TrimSpace body) []).
  - injection HA as <-. by rewrite lookup_singleton_eq.
  - rewrite (parseArgs_keep _ _ _ (str "_metadata") HA), lookup_singleton_eq; [done|].
    intros p Hp Heq. apply Hkeys. rewrite <- Heq. by apply in_map.
Qed.

End ActionFacts.

Lemma ParseAction_result_witness :
  (Some ({[ str "_metadata" := AString (str "do"); str "x" := AInt 7 ]}
         : gmap gostring (any sampleFloat)) = None
   /\ exists msg, (None : error) = Some msg)
  \/ ((None : error) = None /\ exists action : gmap gostring (any sampleFloat),
        Some ({[ str "_metadata" := AString (str "do"); str "x" := AInt 7 ]}
              : gmap gostring (any sampleFloat)) = Some action
        /\ is_Some (action !! str "_metadata")
        /\ forall k v, action !! k = Some v -> typedValue v).
Proof.
  apply (ParseAction_result sampleParseFloat (str " do(x=7) ")).
  vm_compute. reflexivity.
Defined.

Lemma ParseAction_do_keys_witness :
  is_Some (({[ str "_metadata" := AString (str "do"); str "x" := AInt 7 ]}
            : gmap gostring (any sampleFloat)) !! str "x")
  <-> str "x" = str "_metadata" \/ In (str "x") (argKeys (str "x=7")).
Proof.
  apply (ParseAction_do_keys sampleParseFloat (str " do(x=7) ") (str "x=7")).
  - reflexivity.
  - vm_compute. reflexivity.
Defined.

Lemma ParseAction_do_last_wins_witness :
  exists k v val,
    Cut (str "_metadata=true") (str "=") = Some (k, v)
    /\ parseLiteral sampleParseFloat (TrimSpace v) = Returns (val, None)
    /\ ({[ str "_metadata" := ABool true; str "x" := AInt 1 ]}
         : gmap gostring (any sampleFloat)) !! keyOf (str "_metadata=true") = Some val.
Proof.
  apply (ParseAction_do_last_wins sampleParseFloat
           (str "do(_metadata=2, x=1, _metadata=true)")
           (str "_metadata=2, x=1, _metadata=true") (str "_metadata=true")
           [str "_metadata=2"; str "x=1"] []).
  - reflexivity.
  - reflexivity.
  - reflexivity.
  - intros p [].
  - vm_compute. reflexivity.
Defined.

Lemma ParseAction_do_metadata_witness :
  ({[ str "_metadata" := AString (str "do"); str "x" := AInt 7 ]}
   : gmap gostring (any sampleFloat)) !! str "_metadata" = Some (AString (str "do")).
Proof.
  apply (ParseAction_do_metadata sampleParseFloat (str " do(x=7) ") (str "x=7")).
  - reflexivity.
  - vm_compute. intros [H|[]]. discriminate H.
  - vm_compute. reflexivity.
Defined.


(** ** From the response text to the finish Action *)

Lemma trimLead_keeps_from (runes : list gostring) (c : ascii) (n : nat) (t q : gostring) :
  (forall r, In r runes -> ~ In c r) ->
  exists t', trimLead n runes (t ++ c :: q) = t' ++ c :: q.
Proof.
  intros Hc. revert t; induction n as [|n IH]; intros t; simpl.
  - by exists t.
  - unfold leadLen. destruct (find (HasPrefix (t ++ c :: q)) runes) as [r|] eqn:E.
    + apply find_some in E as [Hin Hp].
      destruct (length r) as [|k] eqn:Hk; [by exists t|].
      apply HasPrefix_prefix in Hp as [b Hb].
      destruct (decide (length r <= length t)%nat) as [Hle|Hgt].
      * rewrite drop_app_le by lia. apply IH.
      * exfalso. apply (Hc r Hin).
        assert ((r ++ b) !! length t = Some c) as Hl
          by (rewrite <- Hb; apply list_lookup_middle; done).
        rewrite lookup_app_l in Hl by lia.
        apply list_elem_of_In. by apply list_elem_of_lookup_2 in Hl.
    + by exists t.
Qed.

(** Trimming leaves what stands between two plain bytes as it is. *)
Lemma TrimSpace_frame (c d : ascii) (mid rest : gostring) :
  plainByte c = true -> plainByte d = true ->
  exists rest', TrimSpace (c :: mid ++ d :: rest) = c :: mid ++ d :: rest'.
Proof.
  intros Hc Hd. unfold TrimSpace, TrimLeftSpace.
  rewrite trimLead_fix
    by (apply leadLen_plain; [apply spaceRunes_nonempty | by apply plainByte_spec]).
  unfold TrimRightSpace.
  change (c :: mid ++ d :: rest) with ((c :: mid) ++ d :: rest).
  assert (rev ((c :: mid) ++ d :: rest) = rev rest ++ d :: rev (c :: mid)) as ->.
  { rewrite rev_app_distr. cbn [rev]. by rewrite <- !app_assoc. }
  destruct (trimLead_keeps_from (map (@rev ascii) spaceRunes) d
              (length ((c :: mid) ++ d :: rest)) (rev rest) (rev (c :: mid))
              (plainByte_spec_rev d Hd)) as [t' ->].
  exists (rev t'). rewrite rev_app_distr. cbn [rev].
  rewrite <- !app_assoc. cbn [app]. rewrite rev_app_distr, rev_involutive.
  reflexivity.
Qed.

Lemma matchGroup_wellEscaped (g rest : gostring) :
  wellEscaped g -> GoRegexp.matchGroup (g ++ dquote :: rest) = Some g.
Proof.
  induction 1 as [|d g Hd _ IH|c g Hq Hb _ IH]; cbn [app GoRegexp.matchGroup].
  - by rewrite Ascii.eqb_refl.
  - assert (Ascii.eqb backslash dquote = false) as -> by reflexivity.
    rewrite Ascii.eqb_refl. apply Ascii.eqb_neq in Hd. by rewrite Hd, IH.
  - apply Ascii.eqb_neq in Hq, Hb. by rewrite Hq, Hb, IH.
Qed.

Lemma FindStringSubmatch_skip (c : ascii) (s : gostring) :
  HasPrefix (c :: s) GoRegexp.messageLit = false ->
  GoRegexp.FindStringSubmatch (c :: s) = GoRegexp.FindStringSubmatch s.
Proof. intros H. cbn [GoRegexp.FindStringSubmatch]. by rewrite H. Qed.

Lemma FindStringSubmatch_here (g tail : gostring) :
  GoRegexp.matchGroup tail = Some g ->
  GoRegexp.FindStringSubmatch (GoRegexp.messageLit ++ tail)
  = [GoRegexp.messageLit ++ g ++ [dquote]; g].
Proof.
  intros H.
  assert (HasPrefix (GoRegexp.messageLit ++ tail) GoRegexp.messageLit = true) as Hp
    by apply HasPrefix_app.
  assert (drop (length GoRegexp.messageLit) (GoRegexp.messageLit ++ tail) = tail) as Hd
    by apply drop_app_length.
  destruct (GoRegexp.messageLit ++ tail) as [|c s] eqn:E.
  - cbn [GoRegexp.FindStringSubmatch]. by rewrite Hp, Hd, H.
  - cbn [GoRegexp.FindStringSubmatch]. by rewrite Hp, Hd, H.
Qed.

Section FinishPipeline.

Context {float64 : Type} (ParseFloat : gostring -> option float64).

(** X13. A response that ends its thinking with [finish(message=], a
    quoted message and any text after it is taken apart by [parseResponse]
    and [ParseAction] into the trimmed thinking and the finish Action whose
    message is the text between the quotes, byte for byte: escapes are kept
    as written, not decoded. The message is any text in which each backslash
    starts an escape and no quote stands outside one. *)
Theorem finish_pipeline (content pre g rest : gostring) :
  content = pre ++ str "finish(message=" ++ [dquote] ++ g ++ [dquote] ++ rest ->
  (forall k, (k < length pre)%nat -> ~ occursAt content (str "finish(message=") k) ->
  wellEscaped g ->
  exists action,
    parseResponse content = Returns (TrimSpace pre, action)
    /\ ParseAction ParseFloat action
       = Returns (Some {[ str "_metadata" := AString (str "finish");
                          str "message" := AString g ]}, None).
Proof.
  intros -> Hfirst Hg. eexists. split.
  { unfold parseResponse.
    assert (Contains (pre ++ str "finish(message=" ++ [dquote] ++ g ++ [dquote] ++ rest)
              (str "finish(message=") = true) as ->.
    { apply Contains_occurs. exists (length pre). by eexists pre, _. }
    destruct (index_SplitN2_cut _ _ _ _ (Cut_first pre _ _ Hfirst)) as [-> ->].
    reflexivity. }
  unfold ParseAction.
  destruct (TrimSpace_frame "f" dquote (str "inish(message=" ++ dquote :: g) rest
              eq_refl eq_refl) as [rest' Htrim].
  rewrite (Htrim : TrimSpace (str "finish(message=" ++ [dquote] ++ g ++ [dquote] ++ rest) = _).
  assert (HasPrefix ("f"%char :: (str "inish(message=" ++ dquote :: g) ++ dquote :: rest')
            (str "do(") = false) as -> by reflexivity.
  assert (HasPrefix ("f"%char :: (str "inish(message=" ++ dquote :: g) ++ dquote :: rest')
            (str "finish") = true) as -> by reflexivity.
  unfold parseFinishMessage.
  assert (GoRegexp.FindStringSubmatch
            ("f"%char :: (str "inish(message=" ++ dquote :: g) ++ dquote :: rest')
          = [GoRegexp.messageLit ++ g ++ [dquote]; g]) as ->; [|done].
  change ("f"%char :: (str "inish(message=" ++ dquote :: g) ++ dquote :: rest')
    with (str "finish(" ++ GoRegexp.messageLit ++ g ++ dquote :: rest').
  change (str "finish(") with ["f"; "i"; "n"; "i"; "s"; "h"; "("]%char.
  cbn [app]. rewrite !FindStringSubmatch_skip by reflexivity.
  apply FindStringSubmatch_here. by apply matchGroup_wellEscaped.
Qed.

End FinishPipeline.

Lemma finish_pipeline_witness :
  exists action,
    parseResponse (str "done. finish(message=" ++ [dquote] ++ [backslash; dquote; "a"%char]
                   ++ [dquote] ++ str ") ")
    = Returns (TrimSpace (str "done. "), action)
    /\ ParseAction sampleParseFloat action
       = Returns (Some {[ str "_metadata" := AString (str "finish");
                          str "message" := AString [backslash; dquote; "a"%char] ]}, None).
Proof.
  apply (finish_pipeline sampleParseFloat _ (str "done. ") [backslash; dquote; "a"%char]
           (str ") ")).
  - reflexivity.
  - apply (proj1 (Index_Some _ _ _)). vm_compute. reflexivity.
  - apply wellEscaped_escape; [discriminate|].
    apply wellEscaped_char; [discriminate | discriminate | constructor].
Defined.

(** ** The receive loop: what is printed and what is held back *)

Lemma isPotentialMarker_spec (buf : gostring) :
  isPotentialMarker buf = true <->
  exists m k, In m actionMarkers /\ (0 < k < length m)%nat /\ take k m `suffix_of` buf.
Proof.
  split.
  - unfold isPotentialMarker. intros (m & Hm & H)%existsb_exists.
    apply existsb_exists in H as (k & Hk & H). apply in_seq in Hk.
    exists m, k. split; [done|]. split; [lia|]. by apply HasSuffix_suffix.
  - intros (m & k & Hm & Hk & H). apply (isPotentialMarker_true buf m k Hm Hk).
    by apply HasSuffix_suffix.
Qed.

Lemma suffix_app_cases (x a b : gostring) :
  x `suffix_of` a ++ b ->
  x `suffix_of` b \/ exists x1, x = x1 ++ b /\ x1 `suffix_of` a /\ x1 <> [].
Proof.
  intros [k H]. apply app_eq_app in H as [l [[Ha Hx]|[Hk Hb]]].
  - destruct l as [|c l].
    + left. exists []. by rewrite Hx.
    + right. exists (c :: l). split; [done|]. split; [by exists k | done].
  - left. by exists l.
Qed.

Lemma potential_app (out buf : gostring) :
  isPotentialMarker (out ++ buf) = true ->
  isPotentialMarker buf = true \/ isPotentialMarker out = true.
Proof.
  intros (m & k & Hm & Hk & H)%isPotentialMarker_spec.
  apply suffix_app_cases in H as [H|(x1 & Hx & Hsuf & Hne)].
  - left. apply isPotentialMarker_spec. by exists m, k.
  - right. apply isPotentialMarker_spec. exists m, (length x1).
    assert (length (take k m) = length x1 + length buf)%nat as Hlen
      by (by rewrite Hx, length_app).
    rewrite length_take in Hlen.
    assert (0 < length x1)%nat as Hpos by (destruct x1; [done | simpl; lia]).
    split; [done|]. split; [lia|].
    replace (take (length x1) m) with x1; [done|].
    transitivity (take (length x1) (take k m)).
    + by rewrite Hx, take_app_length.
    + rewrite take_take. f_equal. lia.
Qed.

Lemma potential_suffix (out buf : gostring) :
  isPotentialMarker buf = true -> isPotentialMarker (out ++ buf) = true.
Proof.
  intros (m & k & Hm & Hk & H)%isPotentialMarker_spec.
  apply isPotentialMarker_spec. exists m, k. split; [done|]. split; [done|].
  by apply suffix_app_r.
Qed.

Lemma onDelta_held (st : live) (delta : gostring) :
  heldInv st -> heldInv (onDelta st delta).
Proof.
  intros H. unfold onDelta. destruct (streq delta []); [done|].
  destruct (inActionPhase st) eqn:Eph; [done|].
  destruct (H Eph) as [_ Hout].
  destruct (foundMarker (thinkingBuf st ++ delta)); [done|].
  destruct (isPotentialMarker (thinkingBuf st ++ delta)) eqn:Epot; intros _; simpl.
  - split; [by right | done].
  - split; [by left|].
    destruct (isPotentialMarker (stdout st ++ thinkingBuf st ++ delta)) eqn:E; [|done].
    apply potential_app in E as [E|E]; congruence.
Qed.

Lemma recvLoop_held (chunks : list gostring) (st : live) :
  heldInv st -> heldInv (recvLoop st (chunked chunks)).
Proof.
  revert st; induction chunks as [|d chunks IH]; intros st H; [done|].
  rewrite recvLoop_cons. by apply IH, onDelta_held.
Qed.

Lemma segment_held (chunks : list gostring) : heldInv (segment chunks).
Proof. apply recvLoop_held. intros _. split; [by left | reflexivity]. Qed.

(** In the thinking phase the text read so far contains no marker. *)
Lemma thinking_phase (chunks : list gostring) :
  inActionPhase (segment chunks) = existsb (Contains (concat chunks)) actionMarkers.
Proof.
  destruct (segment_inv chunks []) as [(_ & _ & H) Hraw]. rewrite Hraw in H.
  destruct (inActionPhase (segment chunks)).
  - destruct H as (m & rest & Hm & H). symmetry. apply existsb_exists.
    exists m. split; [done|]. rewrite H. apply Contains_app.
  - destruct H as [_ H]. symmetry. apply not_true_is_false.
    intros (m & Hm & Hc)%existsb_exists. by rewrite (H m Hm) in Hc.
Qed.

(** X14. For a stream whose text contains no marker, the receive loop has
    printed, at the end, all of the text except what it holds in its buffer;
    it has printed all of it exactly when the text does not end with the
    start of a marker. A text that ends this way is never shown in full:
    the loop ends without printing the buffer. *)
Theorem thinking_shown_in_full (chunks : list gostring) :
  foundMarker (concat chunks) = None ->
  stdout (segment chunks) ++ thinkingBuf (segment chunks) = concat chunks
  /\ (stdout (segment chunks) = concat chunks
      <-> isPotentialMarker (concat chunks) = false).
Proof.
  intros Hnone.
  assert (inActionPhase (segment chunks) = false) as Eph.
  { rewrite thinking_phase. apply not_true_is_false.
    intros (m & Hm & Hc)%existsb_exists.
    by rewrite (foundMarker_None _ _ Hnone Hm) in Hc. }
  destruct (segment_inv chunks []) as [(_ & _ & H) Hraw].
  rewrite Eph, Hraw in H. destruct H as [H _].
  destruct (segment_held chunks Eph) as [Hbuf Hout].
  split; [done|]. split.
  - intros Heq. by rewrite <- Heq.
  - intros Hpot. destruct Hbuf as [Hbuf|Hbuf].
    + by rewrite H, Hbuf, app_nil_r.
    + apply (potential_suffix (stdout (segment chunks))) in Hbuf. congruence.
Qed.

Lemma thinking_shown_in_full_witness :
  stdout (segment [str "tap "; str "the d"; str "oor"])
  ++ thinkingBuf (segment [str "tap "; str "the d"; str "oor"])
  = concat [str "tap "; str "the d"; str "oor"]
  /\ (stdout (segment [str "tap "; str "the d"; str "oor"])
      = concat [str "tap "; str "the d"; str "oor"]
      <-> isPotentialMarker (concat [str "tap "; str "the d"; str "oor"]) = false).
Proof.
  apply (thinking_shown_in_full [str "tap "; str "the d"; str "oor"]).
  vm_compute. reflexivity.
Defined.

Lemma thinkingEnd_onDelta (st : live) (delta : gostring) :
  thinkingEndSet st = inActionPhase st ->
  thinkingEndSet (onDelta st delta) = inActionPhase (onDelta st delta).
Proof.
  intros H. unfold onDelta. destruct (streq delta []); [done|].
  destruct (inActionPhase st) eqn:Eph; [done|].
  destruct (foundMarker _); [done|]. by destruct (isPotentialMarker _).
Qed.

Lemma thinkingEnd_recvLoop (chunks : list gostring) (st : live) :
  thinkingEndSet st = inActionPhase st ->
  thinkingEndSet (recvLoop st (chunked chunks))
  = inActionPhase (recvLoop st (chunked chunks)).
Proof.
  revert st; induction chunks as [|d chunks IH]; intros st H; [done|].
  rewrite recvLoop_cons. by apply IH, thinkingEnd_onDelta.
Qed.

Lemma firstToken_onDelta (st : live) (delta : gostring) :
  firstTokenReceived st = negb (streq (rawContent st) []) ->
  firstTokenReceived (onDelta st delta) = negb (streq (rawContent (onDelta st delta)) []).
Proof.
  intros H. rewrite rawContent_onDelta. unfold onDelta.
  destruct (streq delta []) eqn:Ed.
  { apply streq_true in Ed as ->. by rewrite app_nil_r. }
  assert (streq (rawContent st ++ delta) [] = false) as ->.
  { apply streq_false. apply streq_false in Ed. intros []%app_eq_nil. done. }
  destruct (inActionPhase st); [done|].
  destruct (foundMarker _); [done|]. by destruct (isPotentialMarker _).
Qed.

Lemma firstToken_recvLoop (chunks : list gostring) (st : live) :
  firstTokenReceived st = negb (streq (rawContent st) []) ->
  firstTokenReceived (recvLoop st (chunked chunks))
  = negb (streq (rawContent (recvLoop st (chunked chunks))) []).
Proof.
  revert st; induction chunks as [|d chunks IH]; intros st H; [done|].
  rewrite recvLoop_cons. by apply IH, firstToken_onDelta.
Qed.

(** X15. Whether the receive loop ends in the action phase depends on the
    text alone, not on how it is cut: it does exactly when the text contains
    a marker. The phase then changed exactly once, else never, and the end
    of thinking is timed exactly when the phase changed. *)
Theorem segment_phase (chunks : list gostring) :
  inActionPhase (segment chunks) = existsb (Contains (concat chunks)) actionMarkers
  /\ phaseFlips live0 (chunked chunks)
     = (if existsb (Contains (concat chunks)) actionMarkers then 1 else 0)%nat
  /\ thinkingEndSet (segment chunks) = inActionPhase (segment chunks).
Proof.
  split; [apply thinking_phase|]. split.
  - rewrite phaseFlips_final. cbn [live0 inActionPhase].
    by rewrite <- thinking_phase.
  - by apply thinkingEnd_recvLoop.
Qed.

(** X16. Once in the action phase, the printed text ends exactly where an
    occurrence of a marker starts in the text read. *)
Theorem printed_up_to_marker (chunks : list gostring) :
  inActionPhase (segment chunks) = true ->
  exists m, In m actionMarkers
    /\ occursAt (concat chunks) m (length (stdout (segment chunks))).
Proof.
  intros Eph. destruct (segment_inv chunks []) as [(_ & _ & H) Hraw].
  rewrite Eph, Hraw in H. destruct H as (m & rest & Hm & H).
  exists m. split; [done|]. by exists (stdout (segment chunks)), rest.
Qed.

Lemma printed_up_to_marker_witness :
  exists m, In m actionMarkers
    /\ occursAt (concat [str "go d"; str "o(action=Tap"; str ")"]) m
         (length (stdout (segment [str "go d"; str "o(action=Tap"; str ")"]))).
Proof.
  apply (printed_up_to_marker [str "go d"; str "o(action=Tap"; str ")"]).
  vm_compute. reflexivity.
Defined.

(** X17. When the text has a marker at one place only, the text printed
    live is the text before the marker, however the stream is cut, and the
    thinking that [parseResponse] returns is that text, trimmed. *)
Theorem live_thinking_agrees (chunks : list gostring) (pre m post : gostring) :
  In m actionMarkers ->
  concat chunks = pre ++ m ++ post ->
  (forall m' a, In m' actionMarkers -> occursAt (concat chunks) m' a -> a = length pre) ->
  stdout (segment chunks) = pre
  /\ parseResponse (concat chunks) = Returns (TrimSpace pre, m ++ post).
Proof.
  intros Hm Hc Honly. split.
  - assert (inActionPhase (segment chunks) = true) as Eph.
    { rewrite thinking_phase. apply existsb_exists. exists m. split; [done|].
      rewrite Hc. apply Contains_app. }
    destruct (segment_inv chunks []) as [(_ & _ & H) Hraw].
    rewrite Eph, Hraw in H. destruct H as (m1 & rest & Hm1 & H).
    assert (length (stdout (segment chunks)) = length pre) as Hlen.
    { apply (Honly m1); [done|]. by exists (stdout (segment chunks)), rest. }
    rewrite Hc in H. by apply app_inj_1 in H as [H _].
  - assert (forall k, (k < length pre)%nat -> ~ occursAt (concat chunks) m k) as Hfirst.
    { intros k Hk Hocc. apply (Honly m k Hm) in Hocc. lia. }
    rewrite Hc in Hfirst. unfold parseResponse.
    destruct Hm as [<-|[<-|[]]].
    + assert (Contains (concat chunks) (str "finish(message=") = true) as ->
        by (rewrite Hc; apply Contains_app).
      rewrite Hc.
      destruct (index_SplitN2_cut _ _ _ _ (Cut_first pre _ post Hfirst)) as [-> ->].
      reflexivity.
    + assert (Contains (concat chunks) (str "finish(message=") = false) as ->.
      { apply not_true_is_false. intros [a Ha]%Contains_occurs.
        pose proof (Honly _ a ltac:(by left) Ha) as ->.
        apply occursAt_lookup in Ha as [_ Ha]. specialize (Ha 0%nat ltac:(simpl; lia)).
        rewrite Hc, Nat.add_0_r, lookup_app_r, Nat.sub_diag in Ha by lia.
        discriminate Ha. }
      assert (Contains (concat chunks) (str "do(action=") = true) as ->
        by (rewrite Hc; apply Contains_app).
      rewrite Hc.
      destruct (index_SplitN2_cut _ _ _ _ (Cut_first pre _ post Hfirst)) as [-> ->].
      reflexivity.
Qed.

Lemma live_thinking_agrees_witness :
  stdout (segment [str "go d"; str "o(action=Tap"; str ")"]) = str "go "
  /\ parseResponse (concat [str "go d"; str "o(action=Tap"; str ")"])
     = Returns (TrimSpace (str "go "), str "do(action=" ++ str "Tap)").
Proof.
  apply (live_thinking_agrees [str "go d"; str "o(action=Tap"; str ")"]
           (str "go ") (str "do(action=") (str "Tap)")).
  - right. by left.
  - reflexivity.
  - intros m' a [<-|[<-|[]]] Hocc.
    + exfalso. revert a Hocc. apply (proj1 (Index_None _ _)). vm_compute. reflexivity.
    + apply occursAt_drop in Hocc as [Hle Hp]. vm_compute in Hle.
      do 18 (destruct a as [|a];
             [vm_compute in Hp; first [discriminate Hp | reflexivity]|]).
      exfalso. lia.
Defined.

Lemma onDelta_no_finish (T : gostring) (st : live) (delta : gostring) :
  liveInv T st ->
  (exists future, T = rawContent st ++ delta ++ future) ->
  Contains (stdout st) (str "finish(message=") = false ->
  Contains (stdout (onDelta st delta)) (str "finish(message=") = false.
Proof.
  intros Hinv [future HT] Hno.
  pose proof (onDelta_inv T st delta Hinv (ex_intro _ future HT)) as Hinv'.
  destruct Hinv as (_ & Hpart & Hphase). revert Hinv'.
  unfold onDelta. destruct (streq delta []); [done|].
  destruct (inActionPhase st) eqn:Eph; [done|].
  destruct Hphase as [Hraw Hnone].
  destruct (foundMarker (thinkingBuf st ++ delta)) as [m1|] eqn:Ef.
  - intros _. simpl. unfold SplitN2.
    pose proof (foundMarker_Some _ _ Ef) as [Hm1 Hc].
    destruct (Cut (thinkingBuf st ++ delta) m1) as [[before after]|] eqn:Ecut;
      [|apply Cut_None in Ecut; congruence].
    apply Cut_Some in Ecut as [Hbuf Hfirst]. simpl hd.
    apply not_true_is_false. intros [a Ha]%Contains_occurs.
    destruct (decide (a + length (str "finish(message=") <= length (stdout st))%nat) as [H1|H1].
    { apply occursAt_inv_l in Ha; [|done].
      assert (Contains (stdout st) (str "finish(message=") = true)
        by (apply Contains_occurs; eauto).
      congruence. }
    destruct (decide (length (stdout st) <= a)%nat) as [H2|H2].
    { pose proof Ha as [Hlen _]%occursAt_lookup. rewrite length_app in Hlen.
      apply occursAt_inv_r in Ha; [|done].
      assert (occursAt (thinkingBuf st ++ delta) (str "finish(message=")
                (a - length (stdout st))) as Hocc
        by (rewrite Hbuf; by apply occursAt_app_l).
      assert (m1 = str "finish(message=") as ->.
      { unfold foundMarker, actionMarkers in Ef. cbn [find] in Ef.
        assert (Contains (thinkingBuf st ++ delta) (str "finish(message=") = true) as Hcf
          by (apply Contains_occurs; eauto).
        rewrite Hcf in Ef. by injection Ef. }
      apply (Hfirst (a - length (stdout st))%nat); [|done].
      change (length (str "finish(message=")) with 15%nat in Hlen. lia. }
    apply Hpart. exists (str "finish(message="), a. split; [by left|]. split; [|lia].
    rewrite HT, Hraw, <- !app_assoc, (app_assoc (thinkingBuf st)), Hbuf.
    rewrite <- !app_assoc, (app_assoc (stdout st)). by apply occursAt_app_l.
  - destruct (isPotentialMarker (thinkingBuf st ++ delta));
      intros (_ & _ & Hraw' & Hnone');
      cbn [rawContent stdout thinkingBuf inActionPhase] in *; [done|].
    rewrite Hraw', app_nil_r in Hnone'. apply Hnone'. by left.
Qed.

Lemma recvLoop_no_finish (T : gostring) (chunks : list gostring) (st : live) :
  liveInv T st ->
  (exists future, T = rawContent st ++ concat chunks ++ future) ->
  Contains (stdout st) (str "finish(message=") = false ->
  Contains (stdout (recvLoop st (chunked chunks))) (str "finish(message=") = false.
Proof.
  revert st; induction chunks as [|d chunks IH]; intros st Hinv [future HT] Hno; [done|].
  rewrite recvLoop_cons. cbn [concat] in HT. rewrite <- app_assoc in HT.
  apply IH.
  - apply onDelta_inv; [done|]. by eexists.
  - exists future. by rewrite rawContent_onDelta, <- app_assoc.
  - apply (onDelta_no_finish T); [done | by eexists | done].
Qed.

(** X18. The receive loop never prints [finish(message=]: the printed text
    does not contain it, for any stream. *)
Theorem never_prints_finish_marker (chunks : list gostring) :
  Contains (stdout (segment chunks)) (str "finish(message=") = false.
Proof.
  apply (recvLoop_no_finish (concat chunks)).
  - apply liveInv_live0.
  - exists []. by rewrite app_nil_r.
  - reflexivity.
Qed.

(** ** [Request]: what it returns *)

Lemma onResponse_hd (st : live) (resp : response) :
  onResponse st resp = onDelta st (hd [] resp).
Proof. by destruct resp. Qed.

Lemma recvLoop_chunked (resps : list response) (st : live) :
  recvLoop st resps = recvLoop st (chunked (map (hd []) resps)).
Proof.
  revert st; induction resps as [|resp resps IH]; intros st; [done|].
  cbn [map]. rewrite recvLoop_cons, <- IH. unfold recvLoop. cbn [fold_left].
  by rewrite onResponse_hd.
Qed.

Lemma receive_responses (resps : list response) (st : live) :
  receive st (map RecvResponse resps) = (recvLoop st resps, None).
Proof. revert st; induction resps as [|resp resps IH]; intros st; [done | apply IH]. Qed.

Lemma receive_error (resps : list response) (err : gostring) (rest : list recv)
    (st : live) :
  receive st (map RecvResponse resps ++ RecvError err :: rest)
  = (recvLoop st resps, Some err).
Proof. revert st; induction resps as [|resp resps IH]; intros st; [done | apply IH]. Qed.

Lemma parseResponse_not_Panics (content : gostring) : parseResponse content <> Panics.
Proof.
  unfold parseResponse.
  destruct (Contains content (str "finish(message=")) eqn:E1.
  { by destruct (SplitN2_Contains _ _ E1) as (b & a & _ & ->). }
  destruct (Contains content (str "do(action=")) eqn:E2.
  { by destruct (SplitN2_Contains _ _ E2) as (b & a & _ & ->). }
  destruct (Contains content (str "<answer>")) eqn:E3; [|done].
  by destruct (SplitN2_Contains _ _ E3) as (b & a & _ & ->).
Qed.

(** X19. On a stream that ends without error, [Request] returns a response
    and no error, and the response is a function of the text received, not
    of how the stream cuts it: the raw content is the text of the first
    choices put together, thinking and action are what [parseResponse] makes
    of it, the time to the first token is set exactly when the text is not
    empty, and the time to the end of thinking exactly when the text
    contains a marker. *)
Theorem Request_response (resps : list response) :
  let raw := concat (map (hd []) resps) in
  exists thinking action,
    parseResponse raw = Returns (thinking, action)
    /\ Request None (map RecvResponse resps)
       = Returns (Some {| Thinking := thinking; Action := action; RawContent := raw;
                          TimeToFirstToken := negb (streq raw []);
                          TimeToThinkingEnd := existsb (Contains raw) actionMarkers |},
                  None).
Proof.
  intros raw. unfold Request. rewrite receive_responses, recvLoop_chunked.
  fold (segment (map (hd []) resps)).
  destruct (segment_inv (map (hd []) resps) []) as [_ Hraw]. fold raw in Hraw.
  rewrite Hraw.
  destruct (parseResponse raw) as [[thinking action]|] eqn:E;
    [|by apply parseResponse_not_Panics in E].
  exists thinking, action. split; [done|]. rewrite bind_Returns. cbn [fst snd].
  do 3 f_equal. f_equal.
  - rewrite <- Hraw. by apply firstToken_recvLoop.
  - unfold raw. rewrite <- thinking_phase. by apply thinkingEnd_recvLoop.
Qed.

(** X20. [Request] returns no response and the error when the stream
    cannot be created, and when the stream fails at some point: what was
    received before the failure is dropped, what would come after it is not
    read, and [parseResponse] is not called. *)
Theorem Request_error (err : gostring) (events rest : list recv) (resps : list response) :
  Request (Some err) events = Returns (None, Some err)
  /\ Request None (map RecvResponse resps ++ RecvError err :: rest)
     = Returns (None, Some err).
Proof. split; [done|]. unfold Request. by rewrite receive_error. Qed.

(** ** [ParseAction]: the syntax error *)

Section ActionErrors.

Context {float64 : Type} (ParseFloat : gostring -> option float64).

Lemma parseArgs_error_shape (parts : list gostring)
    (m : gmap gostring (any float64)) (oa : option (gmap gostring (any float64)))
    (msg : gostring) :
  parseArgs ParseFloat parts m = Returns (oa, Some msg) ->
  (exists key e, msg = str "invalid value for " ++ key ++ str ": " ++ e)
  \/ (exists part, msg = str "invalid argument: " ++ part).
Proof.
  revert m; induction parts as [|part parts IH]; intros m; [done|].
  cbn [parseArgs]. unfold SplitN2.
  destruct (Cut part (str "=")) as [[k v]|]; [|intros [= <- <-]; eauto].
  destruct (parseLiteral ParseFloat (TrimSpace v)) as [[val [e|]]|]; [| |done].
  - rewrite bind_Returns. intros [= <- <-]. left. eauto.
  - rewrite bind_Returns. apply IH.
Qed.

(** X22. For a text that starts with [do(], [ParseAction] reports the
    syntax error exactly when the trimmed text does not end with a closing
    parenthesis; no other failure of a [do(...)] expression gives that error
    text. *)
Theorem ParseAction_do_syntax_error (raw : gostring) :
  HasPrefix (TrimSpace raw) (str "do(") = true ->
  ParseAction ParseFloat raw
  = Returns (None, Some (str "failed to parse do() action: invalid do() syntax"))
  <-> HasSuffix (TrimSpace raw) (str ")") = false.
Proof.
  intros Hdo. unfold ParseAction, parseDoCall. rewrite Hdo. cbn [negb orb].
  destruct (HasSuffix (TrimSpace raw) (str ")")); cbn [negb]; [|done].
  split; [|done]. intros H. exfalso. revert H.
  destruct (streq _ []); [done|].
  destruct (parseArgs _ _ _) as [[oa [msg|]]|] eqn:E; [| |done].
  - rewrite bind_Returns. intros [= Hmsg].
    apply parseArgs_error_shape in E as [(key & e & ->)|[part ->]]; discriminate Hmsg.
  - by rewrite bind_Returns.
Qed.

End ActionErrors.

Lemma ParseAction_do_syntax_error_witness :
  ParseAction sampleParseFloat (str " do(action=Tap ")
  = Returns (None, Some (str "failed to parse do() action: invalid do() syntax"))
  <-> HasSuffix (TrimSpace (str " do(action=Tap ")) (str ")") = false.
Proof.
  apply (ParseAction_do_syntax_error sampleParseFloat (str " do(action=Tap ")).
  reflexivity.
Defined.

(** ** From the response text to the [do] Action *)

Lemma Split_head_keeps (w rest : gostring) :
  ~ In ","%char w ->
  exists a' tl, Split (w ++ rest) (str ", ") = (w ++ a') :: tl.
Proof.
  intros Hw. unfold Split. destruct (length (w ++ rest)) as [|n]; [by exists rest, []|].
  cbn [genSplit]. destruct (Cut (w ++ rest) (str ", ")) as [[a b]|] eqn:E;
    [|by exists rest, []].
  apply Cut_Some in E as [E _]. apply app_eq_app in E as [l [[Hwl Hl]|[Ha _]]].
  - destruct l as [|c l].
    + exists [], (genSplit n b (str ", ")). by rewrite Hwl, !app_nil_r.
    + exfalso. apply Hw. injection Hl as <- _. rewrite Hwl.
      apply in_or_app. right. by left.
  - exists l, (genSplit n b (str ", ")). by rewrite Ha.
Qed.

Section DoPipeline.

Context {float64 : Type} (ParseFloat : gostring -> option float64).

(** X23. When [parseResponse] cuts a response at [do(action=] and
    [ParseAction] accepts the action text, the Action has the key [action]. *)
Theorem response_do_has_action (content thinking action : gostring)
    (a : gmap gostring (any float64)) :
  Contains content (str "finish(message=") = false ->
  Contains content (str "do(action=") = true ->
  parseResponse content = Returns (thinking, action) ->
  ParseAction ParseFloat action = Returns (Some a, None) ->
  is_Some (a !! str "action").
Proof.
  intros H1 H2. unfold parseResponse. rewrite H1, H2.
  destruct (SplitN2_Contains _ _ H2) as (bef & aft & _ & ->).
  intros Hpr HA.
  assert (action = str "do(action=" ++ aft) as -> by (by injection Hpr as _ <-).
  clear Hpr.
  destruct (TrimSpace_frame "d" "=" (str "o(action") aft eq_refl eq_refl)
    as [rest' Htrim].
  change ("d"%char :: str "o(action" ++ "="%char :: aft)
    with (str "do(action=" ++ aft) in Htrim.
  assert (HasSuffix (TrimSpace (str "do(action=" ++ aft)) (str ")") = true) as Hs.
  { revert HA. unfold ParseAction, parseDoCall. rewrite Htrim.
    assert (HasPrefix ("d"%char :: str "o(action" ++ "="%char :: rest') (str "do(") = true)
      as -> by reflexivity.
    cbn [negb orb]. by destruct (HasSuffix _ (str ")")). }
  assert (HasPrefix (TrimSpace (str "do(action=" ++ aft)) (str "do(") = true) as Hp
    by (by rewrite Htrim).
  pose proof (do_form _ Hp Hs) as Hform.
  set (body := doBody (TrimSpace (str "do(action=" ++ aft))) in *.
  assert (exists q, body = str "action=" ++ q) as [q Hbody].
  { rewrite Htrim in Hform.
    change ("d"%char :: str "o(action" ++ "="%char :: rest')
      with (str "do(" ++ str "action=" ++ rest') in Hform.
    apply app_inv_head in Hform.
    destruct (decide (rest' = [])) as [->|Hne].
    { exfalso. destruct body as [|? [|? [|? [|? [|? [|? [|? [|? ?]]]]]]]];
        discriminate Hform. }
    destruct (exists_last Hne) as (q & c & ->). exists q.
    rewrite (app_assoc (str "action=") q [c]) in Hform.
    by apply app_inj_tail in Hform as [<- _]. }
  apply (ParseAction_do_success _ _ _ _ _ Hform) in HA as [_ HA].
  rewrite parseDoCall_body in HA.
  assert (streq (TrimSpace body) [] = false) as Hblank.
  { apply streq_false. rewrite Hbody.
    destruct (TrimSpace_head "a" (str "ction=" ++ q) eq_refl) as [r' Hr].
    change ("a"%char :: str "ction=" ++ q) with (str "action=" ++ q) in Hr.
    by rewrite Hr. }
  rewrite Hblank in HA. apply (parseArgs_dom _ _ _ _ (str "action") HA). right.
  rewrite Hbody.
  destruct (Split_head_keeps (str "action=") q) as (a' & tl & ->).
  { vm_compute. intuition discriminate. }
  left. unfold keyOf, SplitN2.
  rewrite (Cut_byte (str "action") a' "=" eq_refl
           : Cut (str "action=" ++ a') (str "=") = _).
  reflexivity.
Qed.

End DoPipeline.

Lemma response_do_has_action_witness :
  is_Some (({[ str "_metadata" := AString (str "do"); str "action" := ABool true ]}
            : gmap gostring (any sampleFloat)) !! str "action").
Proof.
  apply (response_do_has_action sampleParseFloat
           (str "go do(action=true) ") (str "go") (str "do(action=true) ")).
  - reflexivity.
  - reflexivity.
  - reflexivity.
  - vm_compute. reflexivity.
Defined.

(** ** String values of a [do] Action *)

Section DoStrings.

Context {float64 : Type} (ParseFloat : gostring -> option float64).

(** X24. No string value of the Action of a [do(...)] expression contains
    a comma followed by a space: the argument list is split on it before
    the quotes are looked at, so that a quoted value with comma-space is cut
    in two tokens and never read as one string. *)
Theorem ParseAction_do_no_comma_space (raw key s : gostring)
    (action : gmap gostring (any float64)) :
  HasPrefix (TrimSpace raw) (str "do(") = true ->
  ParseAction ParseFloat raw = Returns (Some action, None) ->
  action !! key = Some (AString s) ->
  Contains s (str ", ") = false.
Proof.
  intros Hp HA Hkey.
  assert (HasSuffix (TrimSpace raw) (str ")") = true) as Hs.
  { revert HA. unfold ParseAction, parseDoCall. rewrite Hp. cbn [negb orb].
    by destruct (HasSuffix _ (str ")")). }
  pose proof (do_form _ Hp Hs) as Hform.
  apply (ParseAction_do_success _ _ _ _ _ Hform) in HA as [_ HA].
  rewrite parseDoCall_body in HA.
  destruct (streq (TrimSpace (doBody (TrimSpace raw))) []).
  { injection HA as <-. apply lookup_singleton_Some in Hkey as [_ [= <-]]. reflexivity. }
  apply parseArgs_success in HA as (kvs & _ & Hgood & ->).
  - destruct (fold_kvs_lookup kvs {[ str "_metadata" := AString (str "do") ]} key)
      as [Hin Hout].
    destruct (decide (key ∈ kvs.*1)) as [Hk|Hk].
    + destruct (Hin Hk) as (v & Hv & Hkv). rewrite Hv in Hkey. injection Hkey as ->.
      rewrite Forall_forall in Hgood. by destruct (Hgood _ Hkv) as (_ & _ & _ & Hval).
    + rewrite (Hout Hk) in Hkey.
      apply lookup_singleton_Some in Hkey as [_ [= <-]]. reflexivity.
  - apply Forall_forall. intros part Hpart. apply list_elem_of_In in Hpart.
    by apply (Split_clean (str ", ") (doBody (TrimSpace raw))).
Qed.

End DoStrings.

Lemma ParseAction_do_no_comma_space_witness :
  Contains (str "a,b") (str ", ") = false.
Proof.
  apply (ParseAction_do_no_comma_space sampleParseFloat
           (str "do(text=" ++ quoted (str "a,b") ++ str ")") (str "text") (str "a,b")
           {[ str "_metadata" := AString (str "do"); str "text" := AString (str "a,b") ]}).
  - reflexivity.
  - vm_compute. reflexivity.
  - vm_compute. reflexivity.
Defined.

(** ** The action phase prints nothing *)

Lemma stdout_action_onDelta (st : live) (delta : gostring) :
  inActionPhase st = true -> stdout (onDelta st delta) = stdout st.
Proof.
  intros H. unfold onDelta. destruct (streq delta []); [done|]. by rewrite H.
Qed.

Lemma stdout_action_recvLoop (chunks : list gostring) (st : live) :
  inActionPhase st = true -> stdout (recvLoop st (chunked chunks)) = stdout st.
Proof.
  revert st; induction chunks as [|d chunks IH]; intros st H; [done|].
  rewrite recvLoop_cons, IH by (by apply inActionPhase_onDelta).
  by apply stdout_action_onDelta.
Qed.

Lemma segment_app (chunks1 chunks2 : list gostring) :
  segment (chunks1 ++ chunks2) = recvLoop (segment chunks1) (chunked chunks2).
Proof. unfold segment, recvLoop, chunked. by rewrite map_app, fold_left_app. Qed.

(** X25. Once the receive loop is in the action phase it prints nothing
    more: whatever the stream delivers next, the printed text stays as it
    is, so that no byte of the action is ever shown. *)
Theorem action_phase_prints_nothing (chunks1 chunks2 : list gostring) :
  inActionPhase (segment chunks1) = true ->
  stdout (segment (chunks1 ++ chunks2)) = stdout (segment chunks1).
Proof. intros H. rewrite segment_app. by apply stdout_action_recvLoop. Qed.

Lemma action_phase_prints_nothing_witness :
  stdout (segment ([str "go d"; str "o(action=T"] ++ [str "ap)"; str " bye"]))
  = stdout (segment [str "go d"; str "o(action=T"]).
Proof.
  apply (action_phase_prints_nothing [str "go d"; str "o(action=T"] [str "ap)"; str " bye"]).
  vm_compute. reflexivity.
Defined.

(** ** White space around a text *)

Lemma find_ext_in {A : Type} (f g : A -> bool) (l : list A) :
  (forall x, In x l -> f x = g x) -> find f l = find g l.
Proof.
  induction l as [|x l IH]; intros H; [done|]. cbn [find].
  rewrite (H x) by (by left). destruct (g x); [done|].
  apply IH. intros y Hy. apply H. by right.
Qed.

Section RuneSeq.

Variable runes : list gostring.
Hypothesis runes_nonempty : Forall (fun r => r <> []) runes.
Hypothesis runes_prefix_free :
  forall r r', In r runes -> In r' runes -> r `prefix_of` r' -> r = r'.

Lemma rune_nonempty (r : gostring) : In r runes -> (0 < length r)%nat.
Proof using runes_nonempty.
  intros Hr. rewrite Forall_forall in runes_nonempty.
  apply list_elem_of_In in Hr. specialize (runes_nonempty r Hr).
  destruct r; [done | simpl; lia].
Qed.

Lemma leadLen_nil : leadLen runes [] = 0%nat.
Proof using runes_nonempty.
  apply leadLen_0; [done|]. intros r Hr. apply rune_nonempty in Hr.
  destruct r; [simpl in Hr; lia | done].
Qed.

Lemma leadLen_le (s : gostring) : (leadLen runes s <= length s)%nat.
Proof.
  unfold leadLen. destruct (find (HasPrefix s) runes) as [r|] eqn:E; [|lia].
  apply find_some in E as [_ [k ->]%HasPrefix_prefix]. rewrite length_app. lia.
Qed.

Lemma leadLen_rune (r s : gostring) :
  In r runes -> leadLen runes (r ++ s) = length r.
Proof using runes_prefix_free.
  intros Hr. unfold leadLen.
  destruct (find (HasPrefix (r ++ s)) runes) as [r'|] eqn:E.
  - apply find_some in E as [Hr' Hp%HasPrefix_prefix].
    destruct (prefix_weak_total r r' (r ++ s)) as [H|H]; [by exists s | done | |].
    + by rewrite (runes_prefix_free r r' Hr Hr' H).
    + by rewrite (runes_prefix_free r' r Hr' Hr H).
  - pose proof (find_none _ _ E r Hr) as H. by rewrite HasPrefix_app in H.
Qed.

Lemma trimLead_fuel (n m : nat) (s : gostring) :
  (length s <= n)%nat -> (length s <= m)%nat ->
  trimLead n runes s = trimLead m runes s.
Proof using runes_nonempty.
  revert m s; induction n as [|n IH]; intros m s Hn Hm.
  - destruct s; [|simpl in Hn; lia]. destruct m; [done|].
    cbn [trimLead]. by rewrite leadLen_nil.
  - destruct m as [|m].
    + destruct s; [|simpl in Hm; lia]. cbn [trimLead]. by rewrite leadLen_nil.
    + cbn [trimLead]. destruct (leadLen runes s) as [|k]; [done|].
      apply IH; rewrite length_drop; lia.
Qed.

Lemma trimLead_S (n : nat) (s : gostring) :
  trimLead (S n) runes s
  = match leadLen runes s with
    | O => s
    | S k => trimLead n runes (drop (S k) s)
    end.
Proof. reflexivity. Qed.

Lemma trimLead_rune (r s : gostring) (n : nat) :
  In r runes -> (length (r ++ s) <= n)%nat ->
  trimLead n runes (r ++ s) = trimLead n runes s.
Proof using runes_nonempty runes_prefix_free.
  intros Hr Hn. pose proof (rune_nonempty r Hr) as Hpos.
  rewrite length_app in Hn. destruct n as [|n]; [lia|].
  rewrite (trimLead_S n (r ++ s)), (leadLen_rune r s Hr).
  destruct (length r) as [|k] eqn:Hk; [lia|].
  rewrite <- Hk, drop_app_length. apply trimLead_fuel; lia.
Qed.

Lemma trimLead_runes (rs : list gostring) (s : gostring) (n : nat) :
  Forall (fun r => In r runes) rs -> (length (concat rs ++ s) <= n)%nat ->
  trimLead n runes (concat rs ++ s) = trimLead n runes s.
Proof using runes_nonempty runes_prefix_free.
  induction 1 as [|r rs Hr _ IH]; intros Hn; [done|].
  cbn [concat] in *. rewrite <- app_assoc in *.
  rewrite (trimLead_rune r _ n Hr Hn). apply IH.
  rewrite length_app in Hn. lia.
Qed.

(** No byte of a rune after its first is the first byte of a rune. *)
Hypothesis runes_sync :
  forall p r j, In p runes -> In r runes -> (0 < j < length p)%nat -> p !! j <> r !! 0%nat.

Lemma HasPrefix_app_runes (s p : gostring) (rs : list gostring) :
  s <> [] -> In p runes -> Forall (fun r => In r runes) rs ->
  HasPrefix (s ++ concat rs) p = HasPrefix s p.
Proof using runes_nonempty runes_sync.
  intros Hs Hp Hrs. destruct (HasPrefix s p) eqn:E.
  - apply HasPrefix_prefix. apply HasPrefix_prefix in E. by apply prefix_app_r.
  - apply not_true_is_false. intros [k Hk]%HasPrefix_prefix.
    destruct (decide (length p <= length s)%nat) as [Hle|Hgt].
    + assert (HasPrefix s p = true); [|congruence]. apply HasPrefix_prefix.
      exists (drop (length p) s).
      apply (f_equal (take (length p))) in Hk.
      rewrite take_app_le, take_app_length in Hk by done.
      rewrite <- Hk at 1. by rewrite take_drop.
    + assert (p !! length s = concat rs !! 0%nat) as Hbyte.
      { rewrite <- (lookup_app_l p k) by lia. rewrite <- Hk.
        rewrite lookup_app_r by lia. by rewrite Nat.sub_diag. }
      destruct Hrs as [|r rs Hr _].
      * apply (f_equal length) in Hk. rewrite !length_app in Hk. simpl in Hk. lia.
      * pose proof (rune_nonempty r Hr) as Hpos.
        assert (concat (r :: rs) !! 0%nat = r !! 0%nat) as Hfirst.
        { cbn [concat]. by rewrite lookup_app_l. }
        rewrite Hfirst in Hbyte. revert Hbyte. apply runes_sync; [done | done|].
        assert (0 < length s)%nat by (destruct s; [done | simpl; lia]). lia.
Qed.

Lemma leadLen_app_runes (s : gostring) (rs : list gostring) :
  s <> [] -> Forall (fun r => In r runes) rs ->
  leadLen runes (s ++ concat rs) = leadLen runes s.
Proof using runes_nonempty runes_sync.
  intros Hs Hrs. unfold leadLen.
  rewrite (find_ext_in (HasPrefix (s ++ concat rs)) (HasPrefix s)); [done|].
  intros p Hp. by apply HasPrefix_app_runes.
Qed.

Lemma trimLead_app_runes (n : nat) (s : gostring) (rs : list gostring) :
  Forall (fun r => In r runes) rs ->
  (length s + length (concat rs) <= n)%nat ->
  trimLead n runes (s ++ concat rs)
  = match trimLead n runes s with
    | [] => []
    | t => t ++ concat rs
    end.
Proof using runes_nonempty runes_prefix_free runes_sync.
  intros Hrs. revert s; induction n as [|n IH]; intros s Hn.
  - destruct s; [|simpl in Hn; lia]. cbn.
    destruct (concat rs); [done | simpl in Hn; lia].
  - destruct s as [|c s].
    + rewrite app_nil_l. rewrite <- (app_nil_r (concat rs)) at 1.
      rewrite (trimLead_runes rs [] (S n) Hrs) by (rewrite app_nil_r; simpl in Hn; lia).
      cbn [trimLead]. by rewrite leadLen_nil.
    + cbn [trimLead]. rewrite leadLen_app_runes by done.
      pose proof (leadLen_le (c :: s)) as Hle.
      destruct (leadLen runes (c :: s)) as [|k]; [done|].
      rewrite drop_app_le by done. apply IH.
      rewrite length_drop. simpl in *. lia.
Qed.

End RuneSeq.

Lemma spaceRunes_prefix_free (r r' : gostring) :
  In r spaceRunes -> In r' spaceRunes -> r `prefix_of` r' -> r = r'.
Proof.
  assert (forallb (fun r => forallb (fun r' => implb (HasPrefix r' r) (streq r r'))
                                    spaceRunes) spaceRunes = true) as H
    by (vm_compute; reflexivity).
  intros Hr Hr' Hp. rewrite forallb_forall in H. specialize (H r Hr).
  rewrite forallb_forall in H. specialize (H r' Hr').
  apply HasPrefix_prefix in Hp. rewrite Hp in H. by apply streq_true in H.
Qed.

Lemma revRunes_prefix_free (r r' : gostring) :
  In r (map (@rev ascii) spaceRunes) -> In r' (map (@rev ascii) spaceRunes) ->
  r `prefix_of` r' -> r = r'.
Proof.
  assert (forallb (fun r => forallb (fun r' => implb (HasPrefix r' r) (streq r r'))
                                    (map (@rev ascii) spaceRunes))
                  (map (@rev ascii) spaceRunes) = true) as H
    by (vm_compute; reflexivity).
  intros Hr Hr' Hp. rewrite forallb_forall in H. specialize (H r Hr).
  rewrite forallb_forall in H. specialize (H r' Hr').
  apply HasPrefix_prefix in Hp. rewrite Hp in H. by apply streq_true in H.
Qed.

Lemma spaceRunes_sync (p r : gostring) (j : nat) :
  In p spaceRunes -> In r spaceRunes -> (0 < j < length p)%nat -> p !! j <> r !! 0%nat.
Proof.
  assert (forallb (fun p =>
            forallb (fun r =>
              forallb (fun j => negb (bool_decide (p !! j = r !! 0%nat)))
                      (seq 1 (length p - 1)))
              spaceRunes)
            spaceRunes = true) as H by (vm_compute; reflexivity).
  intros Hp Hr Hj. rewrite forallb_forall in H. specialize (H p Hp).
  rewrite forallb_forall in H. specialize (H r Hr).
  rewrite forallb_forall in H. specialize (H j ltac:(apply in_seq; lia)).
  apply negb_true_iff in H. by apply bool_decide_eq_false in H.
Qed.

Lemma rev_concat (rs : list gostring) :
  rev (concat rs) = concat (map (@rev ascii) (rev rs)).
Proof.
  induction rs as [|r rs IH]; [done|]. cbn [concat rev].
  rewrite rev_app_distr, IH, map_app, concat_app. cbn. by rewrite app_nil_r.
Qed.

(** White space in front of a text and after it is trimmed away with the
    white space the text begins and ends with. *)
Lemma TrimSpace_spaces (ws1 s ws2 : gostring) :
  spaces ws1 -> spaces ws2 -> TrimSpace (ws1 ++ s ++ ws2) = TrimSpace s.
Proof.
  intros (rs1 & Hrs1 & ->) (rs2 & Hrs2 & ->). unfold TrimSpace, TrimLeftSpace.
  rewrite (trimLead_runes spaceRunes spaceRunes_nonempty spaceRunes_prefix_free)
    by done.
  rewrite (trimLead_app_runes spaceRunes spaceRunes_nonempty spaceRunes_prefix_free
             spaceRunes_sync)
    by (done || rewrite !length_app; lia).
  rewrite (trimLead_fuel spaceRunes spaceRunes_nonempty _ (length s) s)
    by (rewrite ?length_app; lia).
  destruct (trimLead (length s) spaceRunes s) as [|c t] eqn:E; [done|].
  unfold TrimRightSpace. f_equal.
  rewrite rev_app_distr, rev_concat.
  rewrite (trimLead_runes _ revRunes_nonempty revRunes_prefix_free).
  - apply (trimLead_fuel _ revRunes_nonempty);
      rewrite ?length_rev, ?length_app; lia.
  - apply Forall_map, Forall_rev. eapply Forall_impl; [exact Hrs2|].
    intros r Hr. by apply in_map.
  - rewrite <- rev_concat, <- rev_app_distr. by rewrite length_rev.
Qed.

Lemma spaces_plain (c : ascii) (ws : gostring) :
  plainByte c = true -> spaces ws -> ~ In c ws.
Proof.
  intros Hc (rs & Hrs & ->) Hin. apply in_concat in Hin as (r & Hr & Hin).
  rewrite Forall_forall in Hrs. apply list_elem_of_In in Hr.
  by apply (plainByte_spec c Hc r (Hrs r Hr)).
Qed.

Lemma Contains_byte (s : gostring) (c : ascii) :
  Contains s [c] = true <-> In c s.
Proof.
  rewrite Contains_occurs. split.
  - intros (j & a & b & -> & _). apply in_or_app. right. by left.
  - intros (a & b & ->)%in_split. exists (length a). by exists a, b.
Qed.

Section WhiteSpace.

Context {float64 : Type} (ParseFloat : gostring -> option float64).

(** X12. White space around the key and around the value of an argument
    token does not count: with any white space put before the key, between
    the key and [=], between [=] and the value, and after the value, the
    loop over the tokens goes on as from the token without it. *)
Theorem parseArgs_token_trimmed (k v ws1 ws2 ws3 ws4 : gostring)
    (parts : list gostring) (m : gmap gostring (any float64)) :
  Contains k (str "=") = false ->
  spaces ws1 -> spaces ws2 -> spaces ws3 -> spaces ws4 ->
  parseArgs ParseFloat ((ws1 ++ k ++ ws2 ++ str "=" ++ ws3 ++ v ++ ws4) :: parts) m
  = parseArgs ParseFloat ((k ++ str "=" ++ v) :: parts) m.
Proof.
  intros Hk H1 H2 H3 H4.
  assert (Contains (ws1 ++ k ++ ws2) (str "=") = false) as Hk'.
  { apply not_true_is_false. intros Hin%Contains_byte.
    apply in_app_or in Hin as [Hin|Hin]; [by apply (spaces_plain "=" ws1)|].
    apply in_app_or in Hin as [Hin|Hin]; [|by apply (spaces_plain "=" ws2)].
    apply Contains_byte in Hin.
    by rewrite (Hk : Contains k ["="%char] = false) in Hin. }
  replace (ws1 ++ k ++ ws2 ++ str "=" ++ ws3 ++ v ++ ws4)
    with ((ws1 ++ k ++ ws2) ++ str "=" ++ (ws3 ++ v ++ ws4))
    by (by rewrite <- !app_assoc).
  cbn [parseArgs]. unfold SplitN2.
  rewrite (Cut_byte (ws1 ++ k ++ ws2) (ws3 ++ v ++ ws4) "=" Hk'
           : Cut ((ws1 ++ k ++ ws2) ++ str "=" ++ _) (str "=") = _).
  rewrite (Cut_byte k v "=" Hk : Cut (k ++ str "=" ++ _) (str "=") = _).
  by rewrite !TrimSpace_spaces.
Qed.

(** X21. White space around the text given to [ParseAction], any run of
    the space characters of Unicode in front of it and after it, changes
    nothing: neither the Action nor the error, its text included. *)
Theorem ParseAction_trim (raw ws1 ws2 : gostring) :
  spaces ws1 -> spaces ws2 ->
  ParseAction ParseFloat (ws1 ++ raw ++ ws2) = ParseAction ParseFloat raw.
Proof. intros H1 H2. unfold ParseAction. by rewrite TrimSpace_spaces. Qed.

End WhiteSpace.

Lemma spaces_sample_ascii : spaces (str "  ").
Proof.
  exists [str " "; str " "]. split; [|reflexivity].
  repeat constructor; vm_compute; tauto.
Qed.

Lemma spaces_sample_wide : spaces (map ascii_of_nat [9; 227; 128; 128; 10]%nat).
Proof.
  exists (map (map ascii_of_nat) [[9]; [227; 128; 128]; [10]]%nat). split; [|reflexivity].
  repeat constructor; vm_compute; tauto.
Qed.

Lemma parseArgs_token_trimmed_witness :
  parseArgs sampleParseFloat
    [str "  " ++ str "x" ++ map ascii_of_nat [9; 227; 128; 128; 10]%nat ++ str "="
     ++ str "  " ++ str "7" ++ map ascii_of_nat [9; 227; 128; 128; 10]%nat] ∅
  = parseArgs sampleParseFloat [str "x" ++ str "=" ++ str "7"] ∅.
Proof.
  apply (parseArgs_token_trimmed sampleParseFloat (str "x") (str "7")).
  - reflexivity.
  - apply spaces_sample_ascii.
  - apply spaces_sample_wide.
  - apply spaces_sample_ascii.
  - apply spaces_sample_wide.
Defined.

Lemma ParseAction_trim_witness :
  ParseAction sampleParseFloat
    (map ascii_of_nat [9; 227; 128; 128; 10]%nat ++ str "do(x=7)" ++ str "  ")
  = ParseAction sampleParseFloat (str "do(x=7)").
Proof.
  apply (ParseAction_trim sampleParseFloat (str "do(x=7)")).
  - apply spaces_sample_wide.
  - apply spaces_sample_ascii.
Defined.
